(** * JD–Resume matcher: extraction and scoring pipeline

    A shallow embedding of [src/app_patched2.py]: the text extractor
    ([extract_text_from_file]), the contact inferencer
    ([extract_contacts]) and the batch matcher ([run_matching]), together
    with the parts of Python they rest on: the backtracking semantics of
    [re] for the patterns of the program, [str] methods, [os.path] on
    POSIX, and binary64 floats.

    Conventions of the model.
    - A Python [str] is a [list ascii], each [ascii] standing for the code
      point of the same number: the texts, paths and terms of the model
      are those whose code points lie below 256.  On them the character
      classes [\w], [\d] and [\s], [str.lower], [str.strip] and the case
      folding of [re.IGNORECASE] are those of Python 3 for [str].
      Title-casing leaves that range for two code points, so what
      [str.capitalize] returns, and with it the inferred name, is a list
      of code points ([ustr]).
    - A Python [float] is the rational it denotes, or an infinity, or NaN;
      every arithmetic operation rounds its exact result to binary64
      (53 bits, ties to even).  The sign of zero is not represented.
    - Exceptions and the two side channels of the program (the logger and
      the progress bar) are explicit: a computation yields a list of
      events and either a value or a raised exception.
    - The PDF extractor, the DOCX reader, the ZIP reader and the XML
      parser are libraries outside the repository: they are parameters
      of the model, each one free to raise. *)

From Stdlib Require Import List Ascii NArith ZArith QArith Qround Qpower.
From Stdlib Require Import Lia Lqa Bool Arith Permutation SpecFloat.
From Stdlib Require String.
Import ListNotations String.StringSyntax.

(** ** Strings *)

Definition str := list ascii.
Coercion String.list_ascii_of_string : String.string >-> list.

(** A string as its code points, for what may leave the range of [str]. *)
Definition ustr := list N.

Open Scope string_scope.
Open Scope list_scope.
Open Scope nat_scope.

Module Char.

Definition code (c : ascii) : nat := nat_of_ascii c.

Definition between (lo hi : nat) (c : ascii) : bool :=
  (lo <=? code c) && (code c <=? hi).

(** [\d] for a [str] pattern: the decimal digits, which below 256 are
    those of ASCII. *)
Definition is_digit (c : ascii) : bool := between 48 57 c.

(** The class [[a-zA-Z]]. *)
Definition is_ascii_alpha (c : ascii) : bool :=
  between 65 90 c || between 97 122 c.

(** [str.isalnum] below 256: the digits and letters of ASCII, the
    ordinal indicators, the superscript digits, the micro sign, the
    fractions, and the letters from 192 on, the two operators 215 and 247
    apart. *)
Definition is_alnum (c : ascii) : bool :=
  is_digit c || is_ascii_alpha c || between 170 170 c || between 178 179 c
  || between 181 181 c || between 185 186 c || between 188 190 c
  || between 192 214 c || between 216 246 c || between 248 255 c.

(** [\w] for a [str] pattern: what [str.isalnum] accepts, and the
    underscore. *)
Definition is_word (c : ascii) : bool := is_alnum c || Ascii.eqb c "_".

(** [\s] for a [str] pattern, and the white space of [str.strip]: TAB,
    LF, VT, FF, CR, the four separators 0x1c..0x1f, the space, NEL (0x85)
    and the no-break space (0xa0). *)
Definition is_space (c : ascii) : bool :=
  between 9 13 c || between 28 32 c || between 133 133 c
  || between 160 160 c.

(** [str.isupper] on one character, and the characters that [str.lower]
    changes: the capital letters of ASCII and those from 192 to 222, the
    multiplication sign apart. *)
Definition is_upper (c : ascii) : bool :=
  between 65 90 c || between 192 214 c || between 216 222 c.

(** [str.lower] on one character; it is also the folding of
    [re.IGNORECASE]. *)
Definition lower (c : ascii) : ascii :=
  if is_upper c then ascii_of_nat (code c + 32) else c.

(** The code point of a character. *)
Definition point (c : ascii) : N := N.of_nat (code c).

(** The characters whose title case is 32 below: the small letters of
    ASCII and those from 224 to 254, the division sign apart. *)
Definition is_small (c : ascii) : bool :=
  between 97 122 c || between 224 246 c || between 248 254 c.

(** The title case of one character, which [str.capitalize] gives to the
    first one (Python 3.8 and later).  Three characters leave the range
    or grow: the micro sign becomes the Greek capital mu (U+039C), the
    sharp s becomes [Ss], and the y with diaeresis becomes its capital
    (U+0178). *)
Definition title (c : ascii) : ustr :=
  if is_small c then [N.of_nat (code c - 32)]
  else if between 181 181 c then [924%N]
  else if between 223 223 c then [83%N; 115%N]
  else if between 255 255 c then [376%N]
  else [point c].

(** One literal character of a pattern. *)
Definition same (a : ascii) (c : ascii) : bool := Ascii.eqb c a.

(** One literal character under [re.IGNORECASE]. *)
Definition same_nocase (a : ascii) (c : ascii) : bool :=
  Ascii.eqb (lower c) (lower a).

(** All the characters, to decide a property of classes by enumeration. *)
Definition all : list ascii := map ascii_of_nat (seq 0 256).
Definition for_all (f : ascii -> bool) : bool := forallb f all.

(** [p] is a subclass of [q]; [p] and [q] are disjoint. *)
Definition subclass (p q : ascii -> bool) : bool :=
  for_all (fun c => implb (p c) (q c)).
Definition disjoint (p q : ascii -> bool) : bool :=
  for_all (fun c => negb (p c && q c)).

End Char.

Module Str.

(** [str.lower()] *)
Definition lower (s : str) : str := map Char.lower s.

(** The code points of a string. *)
Definition points (s : str) : ustr := map Char.point s.

(** [str.capitalize()]: the first character in title case, all the others
    lower-cased. *)
Definition capitalize (s : str) : ustr :=
  match s with
  | [] => []
  | c :: s' => Char.title c ++ points (lower s')
  end.

(** [sep.join(parts)] *)
Fixpoint join {A : Type} (sep : list A) (parts : list (list A)) : list A :=
  match parts with
  | [] => []
  | [p] => p
  | p :: ps => p ++ sep ++ join sep ps
  end.

(** Splitting at every character of a class, empty pieces kept: what
    [s.split(c)] and [re.split('[...]', s)] do for a one-character
    separator. *)
Fixpoint split_on {A : Type} (p : A -> bool) (s : list A)
    : list (list A) :=
  match s with
  | [] => [[]]
  | c :: s' =>
      if p c then [] :: split_on p s'
      else match split_on p s' with
           | [] => [[c]]
           | w :: ws => (c :: w) :: ws
           end
  end.

Definition eqb (a b : str) : bool :=
  if list_eq_dec ascii_dec a b then true else false.

(** Truth value of a string: [if s:]. *)
Definition truthy {A : Type} (s : list A) : bool :=
  match s with [] => false | _ => true end.

(** [s.rfind(c)], with Python's [-1] for "not found". *)
Fixpoint rfind_from (c : ascii) (s : str) (i : Z) (last : Z) : Z :=
  match s with
  | [] => last
  | x :: s' => rfind_from c s' (i + 1)%Z (if Ascii.eqb x c then i else last)
  end.

Definition rfind (c : ascii) (s : str) : Z := rfind_from c s 0%Z (-1)%Z.

(** [s[i:]] and [s[:i]] for [0 <= i]. *)
Definition from (i : Z) (s : str) : str := skipn (Z.to_nat i) s.
Definition upto (i : Z) (s : str) : str := firstn (Z.to_nat i) s.

(** [s[i:i+1]] *)
Definition at_ (i : Z) (s : str) : str := firstn 1 (skipn (Z.to_nat i) s).

End Str.

(** ** The regular expressions of the program

    The fragment of [re] that the four patterns use: character classes,
    sequence, ordered alternative, greedy repetition of a class with a
    lower bound, and one capturing group. *)

Inductive regex : Type :=
| Eps
| Chr (p : ascii -> bool)
| Seq (r1 r2 : regex)
| Alt (r1 r2 : regex)
| Rep (p : ascii -> bool) (lo : nat)
| Grp (r : regex).

Definition Opt (r : regex) : regex := Alt r Eps.

(** A literal string; [nocase] is [re.IGNORECASE]. *)
Fixpoint Lit (nocase : bool) (s : str) : regex :=
  match s with
  | [] => Eps
  | c :: s' => Seq (Chr (if nocase then Char.same_nocase c else Char.same c))
                   (Lit nocase s')
  end.

(** The words of a pattern. *)
Inductive lang : regex -> str -> Prop :=
| L_Eps : lang Eps []
| L_Chr p c : p c = true -> lang (Chr p) [c]
| L_Seq r1 r2 w1 w2 : lang r1 w1 -> lang r2 w2 -> lang (Seq r1 r2) (w1 ++ w2)
| L_AltL r1 r2 w : lang r1 w -> lang (Alt r1 r2) w
| L_AltR r1 r2 w : lang r2 w -> lang (Alt r1 r2) w
| L_Rep p lo w : forallb p w = true -> lo <= length w -> lang (Rep p lo) w
| L_Grp r w : lang r w -> lang (Grp r) w.

Fixpoint nogroup (r : regex) : bool :=
  match r with
  | Eps | Chr _ | Rep _ _ => true
  | Seq r1 r2 | Alt r1 r2 => nogroup r1 && nogroup r2
  | Grp _ => false
  end.

(** The backtracking matcher, in continuation-passing style: [k] is what
    remains to be matched after [r], and the first success in the order
    in which [re] explores the alternatives is the result. *)
Section Matcher.

Context {R : Type}.

(** Greedy [p{lo,}]: take one more character whenever possible, and give
    characters back one at a time when the continuation fails. *)
Fixpoint rep (p : ascii -> bool) (lo : nat) (s : str)
    (k : str -> option R) : option R :=
  let stop := match lo with O => k s | S _ => None end in
  match s with
  | [] => stop
  | c :: s' =>
      if p c then
        match rep p (pred lo) s' k with
        | Some x => Some x
        | None => stop
        end
      else stop
  end.

Fixpoint exec (r : regex) (s : str) (cap : option str)
    (k : str -> option str -> option R) : option R :=
  match r with
  | Eps => k s cap
  | Chr p =>
      match s with
      | c :: s' => if p c then k s' cap else None
      | [] => None
      end
  | Seq r1 r2 => exec r1 s cap (fun s1 cap1 => exec r2 s1 cap1 k)
  | Alt r1 r2 =>
      match exec r1 s cap k with
      | Some x => Some x
      | None => exec r2 s cap k
      end
  | Rep p lo => rep p lo s (fun s1 => k s1 cap)
  | Grp r1 =>
      exec r1 s cap
        (fun s1 _ => k s1 (Some (firstn (length s - length s1) s)))
  end.

End Matcher.

(** [pattern.match(s)]: the rest of [s] after the match, and group 1. *)
Definition match_at (r : regex) (s : str) : option (str * option str) :=
  exec r s None (fun s1 cap => Some (s1, cap)).

(** One element of [re.finditer]: the matched text and group 1. *)
Definition hit : Type := (str * option str)%type.

(** The scan of [re.finditer]: matches are looked for from left to right,
    and the scan resumes where the last match ended.  [skip] counts the
    characters still covered by the last match.  The rules of [re] for a
    match of the empty word are left out: no pattern of the program
    matches the empty word ([nullable]). *)
Fixpoint finditer_from (r : regex) (s : str) (skip : nat) : list hit :=
  match skip with
  | S n =>
      match s with
      | [] => []
      | _ :: s' => finditer_from r s' n
      end
  | O =>
      match match_at r s with
      | Some (rest, cap) =>
          let n := length s - length rest in
          (firstn n s, cap) ::
          match s with
          | [] => []
          | _ :: s' => finditer_from r s' (pred n)
          end
      | None =>
          match s with
          | [] => []
          | _ :: s' => finditer_from r s' 0
          end
      end
  end.

Definition finditer (r : regex) (s : str) : list hit := finditer_from r s 0.

(** [re.findall] for a pattern without a group: the matched texts. *)
Definition findall (r : regex) (s : str) : list str :=
  map fst (finditer r s).

(** [re.findall] for a pattern with one group: the texts of the group. *)
Definition findall_group (r : regex) (s : str) : list str :=
  map (fun h : hit => match snd h with Some g => g | None => [] end)
      (finditer r s).

(** [re.search(r, s)] as a truth value. *)
Fixpoint search (r : regex) (s : str) : bool :=
  match match_at r s with
  | Some _ => true
  | None => match s with [] => false | _ :: s' => search r s' end
  end.

Declare Scope regex_scope.
Delimit Scope regex_scope with re.
Infix ">>" := Seq (at level 61, right associativity) : regex_scope.
Infix "</>" := Alt (at level 62, right associativity) : regex_scope.

(** ** The patterns of the program *)

(** The class [[\w\.-]]. *)
Definition email_char (c : ascii) : bool :=
  Char.is_word c || Char.same "." c || Char.same "-" c.

(** [EMAIL_REGEX = r"[\w\.-]+@[\w\.-]+\.[a-zA-Z]{2,}"] *)
Definition EMAIL_REGEX : regex :=
  (Rep email_char 1 >> Chr (Char.same "@") >> Rep email_char 1 >>
   Chr (Char.same ".") >> Rep Char.is_ascii_alpha 2)%re.

(** The class [[\d \-]]. *)
Definition phone_char (c : ascii) : bool :=
  Char.is_digit c || Char.same " " c || Char.same "-" c.

(** [PHONE_REGEX = r"\+?\d[\d \-]{7,}\d"] *)
Definition PHONE_REGEX : regex :=
  (Opt (Chr (Char.same "+")) >> Chr Char.is_digit >> Rep phone_char 7 >>
   Chr Char.is_digit)%re.

(** [\d+(?:\.\d+)?], the group of the experience pattern. *)
Definition NUMBER : regex :=
  (Rep Char.is_digit 1 >> Opt (Chr (Char.same ".") >> Rep Char.is_digit 1))%re.

(** [(?:years|yrs|year)] under [re.IGNORECASE]. *)
Definition UNIT : regex :=
  (Lit true "years" </> Lit true "yrs" </> Lit true "year")%re.

(** [\s*(?:years|yrs|year)], what follows the group. *)
Definition TAIL : regex := (Rep Char.is_space 0 >> UNIT)%re.

(** [r"(\d+(?:\.\d+)?)\s*(?:years|yrs|year)"] with [flags=re.IGNORECASE] *)
Definition EXPERIENCE_REGEX : regex :=
  (Grp NUMBER >> Rep Char.is_space 0 >> UNIT)%re.

(** [re.escape(term)] compiled with [re.IGNORECASE]: every character of
    the term stands for itself, whatever its case. *)
Definition escaped (term : str) : regex := Lit true term.

(** [r'[\._]'], the separators of [re.split] in the name inference. *)
Definition name_sep (c : ascii) : bool := Char.same "." c || Char.same "_" c.

(** ** Exceptions and events *)

Inductive exn : Type :=
| ZeroDivisionError
| ValueError
| Exception (msg : str).

Inductive result (A : Type) : Type :=
| Ok (a : A)
| Raise (e : exn).

Arguments Ok {A} a.
Arguments Raise {A} e.

(** ** Floats

    A finite binary64 number is the rational it denotes. *)

Module Float.

Inductive float : Type :=
| Fin (q : Q)
| PInf
| NInf
| NaN.

(** Nearest integer, ties to even. *)
Definition rne (x : Q) : Z :=
  let f := Qfloor x in
  match (x - inject_Z f ?= 1 # 2)%Q with
  | Lt => f
  | Gt => (f + 1)%Z
  | Eq => if Z.even f then f else (f + 1)%Z
  end.

Definition pow2 (e : Z) : Q := (2 ^ e)%Q.

(** [ilog2 x] is the integer [k] with [2^k <= x < 2^(k+1)], for [0 < x]. *)
Definition ilog2 (x : Q) : Z :=
  let k := (Z.log2 (Qnum x) - Z.log2 (Zpos (Qden x)))%Z in
  if Qle_bool (pow2 k) x then k else (k - 1)%Z.

(** Exponent of the last place of a binary64 number near [x]:
    53 significant bits, and no exponent below that of the subnormals. *)
Definition ulp_exp (x : Q) : Z := Z.max (ilog2 x - 52) (-1074).

Definition round_pos (x : Q) : Q :=
  let e := ulp_exp x in
  (inject_Z (rne (x / pow2 e)) * pow2 e)%Q.

(** Rounding to nearest, ties to even, before the overflow test. *)
Definition rnd (x : Q) : Q :=
  match (x ?= 0)%Q with
  | Eq => 0%Q
  | Gt => round_pos x
  | Lt => (- round_pos (- x))%Q
  end.

(** The binary64 number nearest to the rational [x]; magnitudes that
    round to [2^1024] or more overflow to an infinity. *)
Definition of_Q (x : Q) : float :=
  let y := rnd x in
  if Qle_bool (pow2 1024) y then PInf
  else if Qle_bool y (- pow2 1024) then NInf
  else Fin (Qred y).

Definition of_nat (n : nat) : float := of_Q (inject_Z (Z.of_nat n)).

Definition zero : float := Fin 0.
Definition one : float := Fin 1.

(** [a - b] *)
Definition sub (a b : float) : float :=
  match a, b with
  | NaN, _ | _, NaN => NaN
  | PInf, PInf | NInf, NInf => NaN
  | PInf, _ | _, NInf => PInf
  | NInf, _ | _, PInf => NInf
  | Fin x, Fin y => of_Q (x - y)
  end.

(** [a * b] *)
Definition mul (a b : float) : float :=
  match a, b with
  | NaN, _ | _, NaN => NaN
  | Fin x, Fin y => of_Q (x * y)
  | Fin x, PInf | PInf, Fin x =>
      match (x ?= 0)%Q with Eq => NaN | Gt => PInf | Lt => NInf end
  | Fin x, NInf | NInf, Fin x =>
      match (x ?= 0)%Q with Eq => NaN | Gt => NInf | Lt => PInf end
  | PInf, PInf | NInf, NInf => PInf
  | PInf, NInf | NInf, PInf => NInf
  end.

(** [a <= b], false as soon as one side is NaN. *)
Definition leb (a b : float) : bool :=
  match a, b with
  | NaN, _ | _, NaN => false
  | NInf, _ | _, PInf => true
  | _, NInf | PInf, _ => false
  | Fin x, Fin y => Qle_bool x y
  end.

(** [a >= b] and [a > b] *)
Definition geb (a b : float) : bool := leb b a.
Definition gtb (a b : float) : bool :=
  match a, b with
  | NaN, _ | _, NaN => false
  | _, _ => negb (leb a b)
  end.

(** [a / b] for two [int]s: the quotient, correctly rounded.  (Python
    raises [OverflowError] for a quotient of [2^1024] or more; the
    program divides a count by a count that is not smaller.) *)
Definition truediv (a b : nat) : result float :=
  match b with
  | O => Raise ZeroDivisionError
  | S _ => Ok (of_Q (inject_Z (Z.of_nat a) / inject_Z (Z.of_nat b)))
  end.

(** [round(x, 2)]: the decimal with two places nearest to [x] (ties to
    even on the exact value of [x]), read back as a float; infinities and
    NaN round to themselves. *)
Definition round2 (x : float) : float :=
  match x with
  | Fin q => of_Q (inject_Z (rne (q * 100)) / 100)
  | _ => x
  end.

(** [max] of a sequence whose first element is [m]: a later element
    replaces the current one when it is greater. *)
Fixpoint max_from (m : float) (l : list float) : float :=
  match l with
  | [] => m
  | x :: l' => max_from (if gtb x m then x else m) l'
  end.

Definition max (l : list float) : result float :=
  match l with
  | [] => Raise ValueError
  | x :: l' => Ok (max_from x l')
  end.

(** Value of a run of decimal digits, most significant first. *)
Definition digit_val (c : ascii) : Z := (Z.of_nat (Char.code c) - 48)%Z.

Fixpoint digits_val (acc : Z) (s : str) : Z :=
  match s with
  | [] => acc
  | c :: s' => digits_val (10 * acc + digit_val c)%Z s'
  end.

Definition all_digits (s : str) : bool :=
  Str.truthy s && forallb Char.is_digit s.

(** [float(s)] for the numerals [ddd] and [ddd.ddd]: the nearest float.
    Python's [float] reads more forms than these two; the model raises
    on them, like Python on a malformed numeral. *)
Definition of_str (s : str) : result float :=
  match Str.split_on (Char.same ".") s with
  | [ip] =>
      if all_digits ip then Ok (of_Q (inject_Z (digits_val 0 ip)))
      else Raise ValueError
  | [ip; fp] =>
      if all_digits ip && all_digits fp
      then Ok (of_Q (inject_Z (digits_val 0 (ip ++ fp))
                     / inject_Z (10 ^ Z.of_nat (length fp))))
      else Raise ValueError
  | _ => Raise ValueError
  end.

(** The float that a binary64 number of the Standard Library's
    [SpecFloat] denotes, to compare the two models on examples. *)
Definition of_spec (f : spec_float) : float :=
  match f with
  | S754_zero _ => Fin 0
  | S754_infinity false => PInf
  | S754_infinity true => NInf
  | S754_nan => NaN
  | S754_finite s m e =>
      Fin (Qred ((if s then - 1 else 1) * inject_Z (Zpos m) * pow2 e))
  end.

(** The integer [m] as a binary64 number of [SpecFloat]. *)
Definition spec_int (m : positive) : spec_float := S754_finite false m 0.

(** A rational is a float when rounding leaves it as it is. *)
Definition representable (x : Q) : Prop := (rnd x == x)%Q.

Definition is_nan (x : float) : bool :=
  match x with NaN => true | _ => false end.

(** The float of a numeral, [0.0] standing for a rejected one. *)
Definition of_numeral (s : str) : float :=
  match of_str s with Ok x => x | Raise _ => zero end.

End Float.

(** ** Computations: events, then a value or an exception *)

(** What the program sends to the logger and to the progress bar. *)
Inductive event : Type :=
| LogInfo (total : nat)
| LogWarning (basename : str) (e : exn)
| BarCreate
| BarSet (value : Float.float).

Definition M (A : Type) : Type := (list event * result A)%type.

Definition ret {A} (a : A) : M A := ([], Ok a).
Definition emit (ev : event) : M unit := ([ev], Ok tt).
Definition lift {A} (r : result A) : M A := ([], r).

Definition bind {A B} (m : M A) (f : A -> M B) : M B :=
  match m with
  | (l, Ok a) => let (l', r) := f a in (l ++ l', r)
  | (l, Raise e) => (l, Raise e)
  end.

(** [try: m  except Exception as e: h e] *)
Definition try_except {A} (m : M A) (h : exn -> M A) : M A :=
  match m with
  | (l, Raise e) => let (l', r) := h e in (l ++ l', r)
  | (l, Ok a) => (l, Ok a)
  end.

Notation "x <- m ;; k" := (bind m (fun x => k))
  (at level 100, m at next level, right associativity).
Notation "m ;;; k" := (bind m (fun _ => k))
  (at level 100, right associativity).

(** [for i, x in enumerate(xs, start): acc.append(body i x)] *)
Fixpoint for_enumerate {A B} (start : nat) (xs : list A) (acc : list B)
    (body : nat -> A -> M B) : M (list B) :=
  match xs with
  | [] => ret acc
  | x :: xs' =>
      b <- body start x ;;
      for_enumerate (S start) xs' (acc ++ [b]) body
  end.

(** ** Paths ([posixpath]) *)

Module Path.

(** [os.path.basename(p)]: what follows the last slash. *)
Definition basename (p : str) : str :=
  Str.from (Str.rfind "/" p + 1) p.

(** The loop of [genericpath._splitext] that skips the leading dots of
    the file name: is there a character other than a dot in
    [p[filenameIndex:dotIndex]]?  The loop moves [filenameIndex] up to
    [dotIndex], so [length p] rounds are enough. *)
Fixpoint has_stem (n : nat) (filenameIndex dotIndex : Z) (p : str) : bool :=
  match n with
  | O => false
  | S n' =>
      if (filenameIndex <? dotIndex)%Z then
        if negb (Str.eqb (Str.at_ filenameIndex p) ".") then true
        else has_stem n' (filenameIndex + 1)%Z dotIndex p
      else false
  end.

(** [os.path.splitext(p)] *)
Definition splitext (p : str) : str * str :=
  let sepIndex := Str.rfind "/" p in
  let dotIndex := Str.rfind "." p in
  if (sepIndex <? dotIndex)%Z
     && has_stem (length p) (sepIndex + 1)%Z dotIndex p
  then (Str.upto dotIndex p, Str.from dotIndex p)
  else (p, []).

End Path.

(** ** XML trees ([xml.etree.ElementTree]) *)

#[warnings="-register-all"]
Inductive xml : Type :=
| Element (tag : str) (text : option str) (children : list xml).

(** [tree.iter()]: the element and its descendants, in document order;
    for each one its tag and its text. *)
Fixpoint iter (t : xml) : list (str * option str) :=
  match t with
  | Element tag text children => (tag, text) :: flat_map iter children
  end.

(** [tag.endswith(suffix)] *)
Definition endswith (suffix s : str) : bool :=
  Str.eqb (skipn (length s - length suffix) s) suffix
  && (length suffix <=? length s).

(** ** The program *)

(** The libraries the extractor calls. *)
Record libraries : Type := {
  (** [pdfminer.high_level.extract_text(path)] *)
  pdf_extract : str -> result str;
  (** [Document(path)] followed by the text of each paragraph *)
  docx_paragraphs : str -> result (list str);
  (** [zipfile.ZipFile(path).read(name)] *)
  zip_read : str -> str -> result (list Byte.byte);
  (** [ET.fromstring(xml)] *)
  xml_fromstring : list Byte.byte -> result xml
}.

Section Program.

Variable lib : libraries.

(** The fallback of the DOCX branch, lines 36-44. *)
Definition is_t (tag : str) : bool := endswith "}t" tag || Str.eqb tag "t".

Fixpoint collect_text (text : str) (nodes : list (str * option str)) : str :=
  match nodes with
  | [] => text
  | (tag, node_text) :: nodes' =>
      collect_text
        (if is_t tag then
           match node_text with
           | Some t => if Str.truthy t then text ++ t ++ " " else text
           | None => text
           end
         else text)
        nodes'
  end.

Definition docx_fallback (path : str) : M str :=
  xml <- lift (zip_read lib path "word/document.xml") ;;
  tree <- lift (xml_fromstring lib xml) ;;
  ret (collect_text [] (iter tree)).

Definition extract_text_from_file (path : str) : M str :=
  let ext := Str.lower (snd (Path.splitext path)) in
  try_except
    (if Str.eqb ext ".pdf" then lift (pdf_extract lib path)
     else if Str.eqb ext ".docx" then
       try_except
         (paragraphs <- lift (docx_paragraphs lib path) ;;
          ret (Str.join ["010"%char] paragraphs))
         (fun _ => docx_fallback path)
     else ret [])
    (fun e => emit (LogWarning (Path.basename path) e) ;;; ret []).

Definition extract_contacts (text : str) : ustr * str * str :=
  let emails := findall EMAIL_REGEX text in
  let phones := findall PHONE_REGEX text in
  let name :=
    match emails with
    | [] => []
    | first :: _ =>
        let user := hd [] (Str.split_on (Char.same "@") first) in
        let parts := Str.split_on name_sep user in
        Str.join (Str.points " ")
                 (map Str.capitalize (filter Str.truthy parts))
    end in
  (name, Str.join ", " emails, Str.join ", " phones).

(** One row of the report. *)
Record record : Type := {
  Filename : str;
  Name : ustr;
  Email : str;
  Phone : str;
  Domain : str;
  Tools : str;
  Skillset : str;
  Experience_Years : Float.float;
  Experience_Match : bool;
  Matched_Keywords : str;
  Match_Percentage : Float.float
}.

(** [[t for t in terms if re.search(re.escape(t), text, re.IGNORECASE)]] *)
Definition matched (terms : list str) (text : str) : list str :=
  filter (fun t => search (escaped t) text) terms.

(** Mapping [float] over the captures, a comprehension that stops at the
    first numeral [float] rejects. *)
Fixpoint floats_of (ms : list str) : result (list Float.float) :=
  match ms with
  | [] => Ok []
  | m :: ms' =>
      match Float.of_str m with
      | Raise e => Raise e
      | Ok x =>
          match floats_of ms' with
          | Raise e => Raise e
          | Ok xs => Ok (x :: xs)
          end
      end
  end.

(** The body of the loop of [run_matching], lines 66-91, for the text of
    one document. *)
Definition score (filename text : str) (keywords : list str)
    (exp_req : option Float.float) (relax : bool)
    (domains tools skillsets : list str) : M record :=
  exp_nums <- lift (floats_of (findall_group EXPERIENCE_REGEX text)) ;;
  experience <-
    match exp_nums with
    | [] => ret Float.zero
    | _ => lift (Float.max exp_nums)
    end ;;
  let matched_kw := matched keywords text in
  match_pct <-
    match keywords with
    | [] => ret Float.zero
    | _ =>
        ratio <- lift (Float.truediv (length matched_kw) (length keywords)) ;;
        ret (Float.round2 (Float.mul ratio (Float.of_nat 100)))
    end ;;
  let matched_domains := matched domains text in
  let matched_tools := matched tools text in
  let matched_skills := matched skillsets text in
  let exp_ok :=
    match exp_req with
    | None => true
    | Some exp_req =>
        let req :=
          if relax && Float.gtb exp_req Float.zero
          then Float.sub exp_req Float.one
          else exp_req in
        Float.geb experience req
    end in
  let '(name, email_addr, phone) := extract_contacts text in
  ret {| Filename := filename;
         Name := name;
         Email := email_addr;
         Phone := phone;
         Domain := Str.join ";" matched_domains;
         Tools := Str.join ";" matched_tools;
         Skillset := Str.join ";" matched_skills;
         Experience_Years := experience;
         Experience_Match := exp_ok;
         Matched_Keywords := Str.join ";" matched_kw;
         Match_Percentage := match_pct |}.

Definition run_matching (paths : list str) (keywords : list str)
    (exp_req : option Float.float) (relax : bool)
    (domains tools skillsets : list str) : M (list record) :=
  let total := length paths in
  emit (LogInfo total) ;;;
  emit BarCreate ;;;
  for_enumerate 1 paths []
    (fun i path =>
       text <- extract_text_from_file path ;;
       r <- score (Path.basename path) text keywords exp_req relax
              domains tools skillsets ;;
       ratio <- lift (Float.truediv i total) ;;
       emit (BarSet ratio) ;;;
       ret r).

End Program.

(** ** The scan of [finditer], stated on the words of the pattern

    [leftmost L s ws]: [ws] are occurrences of words of [L] in [s], from
    left to right and without overlap, and no word of [L] starts in the
    text skipped before an occurrence or after the last one. *)

Definition starts_with (L : str -> Prop) (s : str) : Prop :=
  exists w rest, s = w ++ rest /\ L w.

Definition no_start (L : str -> Prop) (gap after : str) : Prop :=
  forall g1 g2, gap = g1 ++ g2 -> g2 <> [] -> ~ starts_with L (g2 ++ after).

Inductive leftmost (L : str -> Prop) : str -> list str -> Prop :=
| leftmost_nil s : no_start L s [] -> leftmost L s []
| leftmost_cons gap w rest ws :
    no_start L gap (w ++ rest) -> L w -> w <> [] ->
    leftmost L rest ws ->
    leftmost L (gap ++ w ++ rest) (w :: ws).

(** The same scan, stated on the matcher. *)
Inductive scan (r : regex) : str -> list hit -> Prop :=
| scan_end : scan r [] []
| scan_miss c s hs :
    match_at r (c :: s) = None -> scan r s hs -> scan r (c :: s) hs
| scan_hit w rest cap hs :
    w <> [] -> match_at r (w ++ rest) = Some (rest, cap) ->
    scan r rest hs -> scan r (w ++ rest) ((w, cap) :: hs).

(** Can the pattern match the empty word? *)
Fixpoint nullable (r : regex) : bool :=
  match r with
  | Eps => true
  | Chr _ => false
  | Seq r1 r2 => nullable r1 && nullable r2
  | Alt r1 r2 => nullable r1 || nullable r2
  | Rep _ lo => Nat.eqb lo 0
  | Grp r1 => nullable r1
  end.

(** The character classes a pattern tests. *)
Fixpoint classes (r : regex) : list (ascii -> bool) :=
  match r with
  | Eps => []
  | Chr p | Rep p _ => [p]
  | Seq r1 r2 | Alt r1 r2 => classes r1 ++ classes r2
  | Grp r1 => classes r1
  end.

(** ** One row, as a function of the text of the document *)

Definition experience_years (text : str) : Float.float :=
  match map Float.of_numeral (findall_group EXPERIENCE_REGEX text) with
  | [] => Float.zero
  | x :: xs => Float.max_from x xs
  end.

(** [round(matched / total * 100, 2)] *)
Definition percentage (matched total : nat) : Float.float :=
  Float.round2
    (Float.mul
       (Float.of_Q (inject_Z (Z.of_nat matched) / inject_Z (Z.of_nat total)))
       (Float.of_nat 100)).

Definition match_percentage (keywords : list str) (text : str)
    : Float.float :=
  match keywords with
  | [] => Float.zero
  | _ => percentage (length (matched keywords text)) (length keywords)
  end.

(** The threshold the experience of a document is compared with. *)
Definition threshold (exp_req : Float.float) (relax : bool) : Float.float :=
  if relax && Float.gtb exp_req Float.zero
  then Float.sub exp_req Float.one
  else exp_req.

Definition experience_ok (exp_req : option Float.float) (relax : bool)
    (text : str) : bool :=
  match exp_req with
  | None => true
  | Some e => Float.geb (experience_years text) (threshold e relax)
  end.

Definition row (filename text : str) (keywords : list str)
    (exp_req : option Float.float) (relax : bool)
    (domains tools skillsets : list str) : record :=
  {| Filename := filename;
     Name := fst (fst (extract_contacts text));
     Email := snd (fst (extract_contacts text));
     Phone := snd (extract_contacts text);
     Domain := Str.join ";" (matched domains text);
     Tools := Str.join ";" (matched tools text);
     Skillset := Str.join ";" (matched skillsets text);
     Experience_Years := experience_years text;
     Experience_Match := experience_ok exp_req relax text;
     Matched_Keywords := Str.join ";" (matched keywords text);
     Match_Percentage := match_percentage keywords text |}.

(** The text the extractor yields for a path, and the events it emits. *)
Definition text_of (lib : libraries) (path : str) : str :=
  match snd (extract_text_from_file lib path) with
  | Ok text => text
  | Raise _ => []
  end.

Definition warnings_of (lib : libraries) (path : str) : list event :=
  fst (extract_text_from_file lib path).

(** The row of a path in the report. *)
Definition row_of (lib : libraries) (keywords : list str)
    (exp_req : option Float.float) (relax : bool)
    (domains tools skillsets : list str) (path : str) : record :=
  row (Path.basename path) (text_of lib path) keywords exp_req relax
      domains tools skillsets.

(** The events of the loop of [run_matching] from the [i]-th document on. *)
Fixpoint loop_events (lib : libraries) (total i : nat) (paths : list str)
    : list event :=
  match paths with
  | [] => []
  | p :: ps =>
      (warnings_of lib p
       ++ [BarSet (Float.of_Q (inject_Z (Z.of_nat i)
                               / inject_Z (Z.of_nat total)))])
      ++ loop_events lib total (S i) ps
  end.

(** Does the extraction of a path fail?  For a PDF the extractor raises;
    for a DOCX the reader raises and so does the fallback. *)
Definition extension (path : str) : str :=
  Str.lower (snd (Path.splitext path)).

Definition extraction_fails (lib : libraries) (path : str) : bool :=
  if Str.eqb (extension path) ".pdf" then
    match pdf_extract lib path with Raise _ => true | Ok _ => false end
  else if Str.eqb (extension path) ".docx" then
    match docx_paragraphs lib path with
    | Ok _ => false
    | Raise _ =>
        match zip_read lib path "word/document.xml" with
        | Raise _ => true
        | Ok xml =>
            match xml_fromstring lib xml with
            | Raise _ => true
            | Ok _ => false
            end
        end
    end
  else false.

(** A list of strings written as string literals. *)
Definition words (l : list String.string) : list str :=
  map String.list_ascii_of_string l.

(** [l1] is [l2] with some elements left out, the order kept. *)
Inductive sublist {A : Type} : list A -> list A -> Prop :=
| sublist_nil : sublist [] []
| sublist_skip x l1 l2 : sublist l1 l2 -> sublist l1 (x :: l2)
| sublist_keep x l1 l2 : sublist l1 l2 -> sublist (x :: l1) (x :: l2).

(** [needle in text] *)
Definition contains (needle text : str) : Prop :=
  exists pre post, text = pre ++ needle ++ post.

(** ** Two settings of the libraries, for examples *)

(** Every library succeeds. *)
Definition lib_ok : libraries :=
  {| pdf_extract := fun p => Ok p;
     docx_paragraphs := fun p => Ok [p];
     zip_read := fun _ _ => Ok [];
     xml_fromstring := fun _ => Ok (Element "t" None []) |}.

(** Every library raises. *)
Definition lib_bad : libraries :=
  {| pdf_extract := fun _ => Raise (Exception "corrupt file");
     docx_paragraphs := fun _ => Raise (Exception "not a package");
     zip_read := fun _ _ => Raise (Exception "not a zip file");
     xml_fromstring := fun _ => Raise (Exception "syntax error") |}.

(** ** The fallback of the DOCX branch, in the words of its description *)

(** What the fallback keeps of one element: the text of a [t] element,
    when there is one and it is not empty. *)
Definition fragment (node : str * option str) : list str :=
  match node with
  | (tag, Some t) => if is_t tag && Str.truthy t then [t] else []
  | (_, None) => []
  end.

(** The fragments of a tree, in document order. *)
Definition fragments (tree : xml) : list str := flat_map fragment (iter tree).

(** The fragments "joined with a single space separator". *)
Definition joined_fragments (tree : xml) : str :=
  Str.join " " (fragments tree).

(** The fragments, each one followed by a space. *)
Definition spaced_fragments (tree : xml) : str :=
  concat (map (fun t => t ++ " ") (fragments tree)).

(** The reader fails, the package opens and its document parses. *)
Definition lib_fallback (tree : xml) : libraries :=
  {| pdf_extract := fun _ => Raise (Exception "corrupt file");
     docx_paragraphs := fun _ => Raise (Exception "not a package");
     zip_read := fun _ _ => Ok [];
     xml_fromstring := fun _ => Ok tree |}.

Definition one_run : xml :=
  Element "{http://schemas.openxmlformats.org/wordprocessingml/2006/main}t"
          (Some ("Hi" : str)) [].

(** ** The contact fields, in the words of their description *)

(** The part of an address before the at sign. *)
Definition local_part (email : str) : str :=
  hd [] (Str.split_on (Char.same "@") email).

(** "Capitalizing the first letter" of a token: the first character in
    title case, the others as they are. *)
Definition capitalize_first (s : str) : ustr :=
  match s with
  | [] => []
  | c :: s' => Char.title c ++ Str.points s'
  end.

(** The name as described: the local part of the first address split on
    [.] and [_], the first letter of each token capitalized, the tokens
    joined with single spaces. *)
Definition name_as_described (text : str) : ustr :=
  match findall EMAIL_REGEX text with
  | [] => []
  | first :: _ =>
      Str.join (Str.points " ")
        (map capitalize_first (Str.split_on name_sep (local_part first)))
  end.

(** Python values, as far as the contact fields need them. *)
#[warnings="-register-all"]
Inductive value : Type :=
| VStr (s : ustr)
| VList (items : list value).

(** What [extract_contacts] returns: a tuple of three strings. *)
Definition contacts_values (text : str) : value * value * value :=
  let '(name, emails, phones) := extract_contacts text in
  (VStr name, VStr (Str.points emails), VStr (Str.points phones)).

(** The emails as described: the ordered list of the matches. *)
Definition emails_as_described (text : str) : value :=
  VList (map (fun e => VStr (Str.points e)) (findall EMAIL_REGEX text)).

(** The shape [local-part@domain.tld] of an address. *)
Definition email_shape (e : str) : Prop :=
  exists l d t,
    e = l ++ "@" ++ d ++ "." ++ t
    /\ forallb email_char l = true /\ 1 <= length l
    /\ forallb email_char d = true /\ 1 <= length d
    /\ forallb Char.is_ascii_alpha t = true /\ 2 <= length t.

(** ** The occurrences of an experience, in the words of their description *)






(** The characters of a numeral. *)
Definition num_char (c : ascii) : bool := Char.is_digit c || Char.same "." c.

(** A run of characters of a class ends where the class ends. *)
Definition stops (q : ascii -> bool) (v : str) : Prop :=
  match v with
  | [] => True
  | c :: _ => q c = false
  end.

Definition comma_free (w : str) : Prop :=
  forallb (fun c => negb (Char.same "," c)) w = true /\ w <> [].

(** ** Definitions for the further properties

    The fields of the form (lines 162-165 of [app_patched2.py]), and the
    vocabulary the further properties are stated with. *)

(** [term] occurs in [text], whatever the case of the letters. *)
Definition occurs (term text : str) : Prop :=
  exists pre w post, text = pre ++ w ++ post /\ Str.lower w = Str.lower term.

(** The shape of a phone number: an optional plus sign, a digit, seven or
    more digits, spaces or hyphens, a digit. *)
Definition phone_shape (p : str) : Prop :=
  exists plus first middle last,
    p = plus ++ [first] ++ middle ++ [last]
    /\ (plus = [] \/ plus = "+")
    /\ Char.is_digit first = true
    /\ forallb phone_char middle = true /\ 7 <= length middle
    /\ Char.is_digit last = true.






(** The progress values among some events. *)
Definition bar_values (events : list event) : list Float.float :=
  flat_map (fun ev => match ev with BarSet v => [v] | _ => [] end) events.

(** The warnings among some events. *)
Definition warnings (events : list event) : list event :=
  filter (fun ev => match ev with LogWarning _ _ => true | _ => false end)
         events.

Fixpoint nondecreasing (l : list Float.float) : Prop :=
  match l with
  | a :: (b :: _) as rest => Float.leb a b = true /\ nondecreasing rest
  | _ => True
  end.

(** The value the progress bar is set to after the [i]-th document
    of [total]: [i / total]. *)
Definition progress_value (total i : nat) : Float.float :=
  Float.of_Q (inject_Z (Z.of_nat i) / inject_Z (Z.of_nat total)).

(** The characters other than [c]. *)
Definition other_than (c : ascii) (x : ascii) : bool := negb (Ascii.eqb x c).

(** [s.lstrip()], [s.rstrip()] and [s.strip()]: the white space at the
    ends removed. *)
Fixpoint lstrip (s : str) : str :=
  match s with
  | [] => []
  | c :: r => if Char.is_space c then lstrip r else s
  end.

Definition rstrip (s : str) : str := rev (lstrip (rev s)).

Definition strip (s : str) : str := rstrip (lstrip s).

(** The terms of one field of the form:
    [[k.strip() for k in field.split(',') if k.strip()]]. *)
Definition parse_terms (field : str) : list str :=
  map strip
    (filter (fun k => Str.truthy (strip k))
       (Str.split_on (Char.same ",") field)).

(** A term as the form keeps it: not empty, no comma, no white space at
    its ends. *)
Definition clean (t : str) : bool :=
  match t with
  | [] => false
  | c :: _ =>
      negb (Char.is_space c) && negb (Char.is_space (last t c))
      && forallb (other_than ",") t
  end.

(** What the user typed for one term: the term with white space around
    it. *)
Definition typed (e : str * str * str) : str :=
  let '(l, t, r) := e in l ++ t ++ r.

Definition blank (s : str) : bool := forallb Char.is_space s.

Definition well_typed (e : str * str * str) : bool :=
  let '(l, t, r) := e in blank l && clean t && blank r.
(** * Properties of the matcher *)

Section MatcherFacts.

Context {R : Type}.

Lemma rep_sound p lo s (k : str -> option R) x :
  rep p lo s k = Some x ->
  exists w s', s = w ++ s' /\ forallb p w = true /\ lo <= length w
               /\ k s' = Some x.
Proof.
  revert lo; induction s as [|c s IH]; intros lo H; simpl in H.
  - destruct lo; [|discriminate].
    exists [], []; repeat split; auto.
  - destruct (p c) eqn:Hp.
    + destruct (rep p (pred lo) s k) eqn:Hr.
      * injection H as <-.
        destruct (IH _ Hr) as (w & s' & -> & Hw & Hlo & Hk).
        exists (c :: w), s'; simpl; rewrite Hp, Hw; repeat split; auto; lia.
      * destruct lo; [|discriminate].
        exists [], (c :: s); repeat split; auto.
    + destruct lo; [|discriminate].
      exists [], (c :: s); repeat split; auto.
Qed.

Lemma rep_complete p lo s (k : str -> option R) :
  rep p lo s k = None ->
  forall w s', s = w ++ s' -> forallb p w = true -> lo <= length w ->
               k s' = None.
Proof.
  revert lo; induction s as [|c s IH]; intros lo H w s' E Hw Hlo; simpl in H.
  - destruct w; [|discriminate]. simpl in *; subst s'.
    destruct lo; [assumption|lia].
  - destruct w as [|c' w]; simpl in *.
    + subst s'. assert (lo = 0) by lia; subst lo.
      destruct (p c); [|assumption].
      destruct (rep p _ s k); [discriminate|assumption].
    + injection E as -> ->.
      apply andb_prop in Hw as [Hc Hw]. rewrite Hc in H.
      destruct (rep p (pred lo) _ k) eqn:Hr; [discriminate|].
      apply (IH _ Hr w s' eq_refl Hw); lia.
Qed.

Lemma firstn_consumed (w s : str) :
  firstn (length (w ++ s) - length s) (w ++ s) = w.
Proof.
  rewrite length_app, Nat.add_sub, firstn_app, Nat.sub_diag, firstn_all.
  simpl; apply app_nil_r.
Qed.

(** Soundness: a result of the matcher comes from a word of the pattern
    followed by a success of the continuation. *)
Lemma exec_sound r : forall s cap (k : str -> option str -> option R) x,
  exec r s cap k = Some x ->
  exists w s' cap', s = w ++ s' /\ lang r w /\ k s' cap' = Some x
                    /\ (nogroup r = true -> cap' = cap).
Proof.
  induction r as [|p|r1 IH1 r2 IH2|r1 IH1 r2 IH2|p lo|r IH];
    intros s cap k x H; simpl in H.
  - exists [], s, cap; repeat split; auto; constructor.
  - destruct s as [|c s]; [discriminate|].
    destruct (p c) eqn:Hp; [|discriminate].
    exists [c], s, cap; repeat split; auto; constructor; auto.
  - destruct (IH1 _ _ _ _ H) as (w1 & s1 & c1 & -> & L1 & H1 & G1).
    destruct (IH2 _ _ _ _ H1) as (w2 & s2 & c2 & -> & L2 & H2 & G2).
    exists (w1 ++ w2), s2, c2; rewrite <- app_assoc; repeat split; auto.
    + constructor; auto.
    + simpl; intros G; apply andb_prop in G as [Ga Gb].
      rewrite G2, G1; auto.
  - destruct (exec r1 s cap k) eqn:E1.
    + injection H as <-.
      destruct (IH1 _ _ _ _ E1) as (w & s' & c' & -> & L & Hk & G).
      exists w, s', c'; repeat split; auto.
      * apply L_AltL; auto.
      * simpl; intros G'; apply andb_prop in G' as [Ga _]; auto.
    + destruct (IH2 _ _ _ _ H) as (w & s' & c' & -> & L & Hk & G).
      exists w, s', c'; repeat split; auto.
      * apply L_AltR; auto.
      * simpl; intros G'; apply andb_prop in G' as [_ Gb]; auto.
  - destruct (rep_sound _ _ _ _ _ H) as (w & s' & -> & Hw & Hlo & Hk).
    exists w, s', cap; repeat split; auto; constructor; auto.
  - destruct (IH _ _ _ _ H) as (w & s' & c' & -> & L & Hk & _).
    rewrite firstn_consumed in Hk.
    exists w, s', (Some w); repeat split; auto.
    + constructor; auto.
    + discriminate.
Qed.

(** Completeness: when the matcher fails, the continuation fails after
    every word of the pattern that starts the text. *)
Lemma exec_complete r : forall s cap (k : str -> option str -> option R),
  exec r s cap k = None ->
  forall w s', s = w ++ s' -> lang r w -> exists cap', k s' cap' = None.
Proof.
  induction r as [|p|r1 IH1 r2 IH2|r1 IH1 r2 IH2|p lo|r IH];
    intros s cap k H w s' E L; simpl in H.
  - inversion L; subst. exists cap; auto.
  - inversion L as [|? c Hc| | | | |]; subst.
    simpl in H. rewrite Hc in H. exists cap; auto.
  - inversion L as [| |? ? w1 w2 L1 L2| | | |]; subst.
    rewrite <- app_assoc in H.
    destruct (IH1 _ _ _ H w1 (w2 ++ s') eq_refl L1) as (c1 & K1).
    exact (IH2 _ _ _ K1 w2 s' eq_refl L2).
  - subst s. destruct (exec r1 (w ++ s') cap k) eqn:E1; [discriminate|].
    inversion L as [| | |? ? ? L1|? ? ? L2| |]; subst.
    + exact (IH1 _ _ _ E1 w s' eq_refl L1).
    + exact (IH2 _ _ _ H w s' eq_refl L2).
  - inversion L as [| | | | |? ? ? Hw Hlo|]; subst.
    exists cap. exact (rep_complete _ _ _ _ H w s' eq_refl Hw Hlo).
  - inversion L as [| | | | | |? ? L1]; subst.
    destruct (IH _ _ _ H w s' eq_refl L1) as (c' & K).
    eexists; exact K.
Qed.

End MatcherFacts.

Lemma match_at_sound r s rest cap :
  match_at r s = Some (rest, cap) ->
  exists w, s = w ++ rest /\ lang r w.
Proof.
  unfold match_at; intros H.
  destruct (exec_sound _ _ _ _ _ H) as (w & s' & c' & -> & L & K & _).
  injection K as -> ->. exists w; auto.
Qed.

Lemma match_at_complete r s :
  match_at r s = None -> ~ starts_with (lang r) s.
Proof.
  unfold match_at; intros H (w & rest & E & L).
  destruct (exec_complete _ _ _ _ H w rest E L) as (c' & K); discriminate.
Qed.

(** The group of a pattern [(g) r]: the word of [g], when [r] has no
    group of its own. *)
Lemma match_at_group g r s rest cap :
  nogroup r = true ->
  match_at (Seq (Grp g) r) s = Some (rest, cap) ->
  exists w1 w2, s = w1 ++ w2 ++ rest /\ lang g w1 /\ lang r w2
                /\ cap = Some w1.
Proof.
  unfold match_at; simpl; intros G H.
  destruct (exec_sound _ _ _ _ _ H) as (w1 & s1 & c1 & -> & L1 & K1 & _).
  rewrite firstn_consumed in K1.
  destruct (exec_sound _ _ _ _ _ K1) as (w2 & s2 & c2 & -> & L2 & K2 & G2).
  injection K2 as -> ->. exists w1, w2; repeat split; auto.
Qed.

(** ** Patterns that match no empty word *)

Lemma lang_nil_nullable r w : lang r w -> w = [] -> nullable r = true.
Proof.
  induction 1 as [|p c Hc|r1 r2 w1 w2 _ IH1 _ IH2|r1 r2 w _ IH|r1 r2 w _ IH
                 |p lo w Hw Hlo|r w _ IH]; intros E; simpl; auto.
  - discriminate.
  - apply app_eq_nil in E as [-> ->]. rewrite IH1, IH2; auto.
  - rewrite IH; auto.
  - rewrite IH; auto. apply orb_true_r.
  - subst w; simpl in Hlo. apply Nat.eqb_eq; lia.
Qed.

Lemma lang_nonempty r w : nullable r = false -> lang r w -> w <> [].
Proof.
  intros N L E. rewrite (lang_nil_nullable _ _ L E) in N; discriminate.
Qed.

(** ** The scan finds the leftmost occurrences *)

Lemma finditer_from_skip r w s :
  finditer_from r (w ++ s) (length w) = finditer_from r s 0.
Proof. induction w as [|c w IH]; simpl; auto. Qed.

Lemma finditer_scan_len r (N : nullable r = false) n :
  forall s, length s <= n -> scan r s (finditer r s).
Proof.
  unfold finditer.
  induction n as [|n IH]; intros s Hn.
  - destruct s; [|simpl in Hn; lia]. simpl.
    destruct (match_at r []) as [[rest cap]|] eqn:E; [|constructor].
    destruct (match_at_sound _ _ _ _ E) as (w & E' & L).
    symmetry in E'; apply app_eq_nil in E' as [-> _].
    destruct (lang_nonempty _ _ N L eq_refl).
  - destruct s as [|c s].
    + apply (IH []); simpl; lia.
    + simpl in Hn. cbn [finditer_from].
      destruct (match_at r (c :: s)) as [[rest cap]|] eqn:E.
      * destruct (match_at_sound _ _ _ _ E) as (w & E' & L).
        pose proof (lang_nonempty _ _ N L) as Hw.
        destruct w as [|c' w]; [congruence|]. simpl in E'.
        injection E' as <- ->.
        change (c :: w ++ rest) with ((c :: w) ++ rest).
        rewrite firstn_consumed.
        replace (pred (length ((c :: w) ++ rest) - length rest))
          with (length w)
          by (rewrite length_app; cbn [length]; lia).
        rewrite finditer_from_skip.
        apply scan_hit; auto.
        apply IH. rewrite length_app in Hn; lia.
      * apply scan_miss; auto. apply IH; lia.
Qed.

Lemma finditer_scan r s : nullable r = false -> scan r s (finditer r s).
Proof. intros N; exact (finditer_scan_len r N _ s (le_n (length s))). Qed.

Lemma no_start_nil L after : no_start L [] after.
Proof.
  intros g1 g2 E Hg. symmetry in E; apply app_eq_nil in E as [_ ->].
  congruence.
Qed.

Lemma no_start_cons L c gap after :
  ~ starts_with L (c :: gap ++ after) -> no_start L gap after ->
  no_start L (c :: gap) after.
Proof.
  intros Hc Hgap g1 g2 E Hg.
  destruct g1 as [|c' g1]; simpl in E.
  - subst g2. exact Hc.
  - injection E as <- ->. exact (Hgap g1 g2 eq_refl Hg).
Qed.

Lemma scan_leftmost r s hs :
  scan r s hs -> leftmost (lang r) s (map fst hs).
Proof.
  induction 1 as [|c s hs E _ IH|w rest cap hs Hw E _ IH]; simpl.
  - apply leftmost_nil, no_start_nil.
  - apply match_at_complete in E.
    inversion IH as [s0 Hn E1 E2|gap w rest ws Hn Lw Hw Hl E1 E2]; subst.
    + apply leftmost_nil, no_start_cons; auto.
      rewrite app_nil_r; auto.
    + change (c :: gap ++ w ++ rest) with ((c :: gap) ++ w ++ rest).
      apply leftmost_cons; auto. apply no_start_cons; auto.
  - apply (leftmost_cons (lang r) [] w rest); auto.
    + apply no_start_nil.
    + destruct (match_at_sound _ _ _ _ E) as (w' & E' & L).
      apply app_inv_tail in E'; subst; auto.
Qed.

Lemma findall_leftmost r s :
  nullable r = false -> leftmost (lang r) s (findall r s).
Proof. intros N. apply scan_leftmost, finditer_scan, N. Qed.

(** Every hit of the scan is a result of the matcher where it starts. *)
Lemma scan_hits r s hs :
  scan r s hs ->
  Forall (fun h : hit => exists rest, match_at r (fst h ++ rest)
                                      = Some (rest, snd h)) hs.
Proof.
  induction 1 as [|c s hs E _ IH|w rest cap hs Hw E _ IH]; auto.
  constructor; auto. exists rest; auto.
Qed.

(** A place of the text where a word of the pattern starts is covered by
    a hit of the scan. *)
Lemma scan_covers r s hs :
  scan r s hs ->
  forall pre suf, s = pre ++ suf -> suf <> [] ->
    starts_with (lang r) suf ->
    exists a w cap b,
      s = a ++ w ++ b /\ In (w, cap) hs
      /\ match_at r (w ++ b) = Some (b, cap)
      /\ length a <= length pre < length a + length w.
Proof.
  induction 1 as [|c s hs E _ IH|w rest cap hs Hw E _ IH];
    intros pre suf Es Hs St.
  - symmetry in Es; apply app_eq_nil in Es as [_ ->]; congruence.
  - destruct pre as [|c' pre]; simpl in Es.
    + subst suf. apply match_at_complete in E. contradiction.
    + injection Es as <- ->.
      destruct (IH pre suf eq_refl Hs St) as (a & w & cap & b & -> & I & M & B).
      exists (c :: a), w, cap, b; simpl; repeat split; auto; lia.
  - destruct (Nat.lt_ge_cases (length pre) (length w)) as [Hlt|Hge].
    + exists [], w, cap, rest; simpl; repeat split; auto; lia.
    + assert (exists pre', pre = w ++ pre' /\ rest = pre' ++ suf)
        as (pre' & -> & ->).
      { exists (skipn (length w) pre).
        assert (F : firstn (length w) (w ++ rest)
                    = firstn (length w) (pre ++ suf)) by (rewrite Es; auto).
        rewrite firstn_app, Nat.sub_diag, firstn_all in F.
        rewrite firstn_app in F.
        replace (length w - length pre) with 0 in F by lia.
        simpl in F. rewrite !app_nil_r in F.
        split.
        - rewrite F at 1. symmetry; apply firstn_skipn.
        - apply (app_inv_head w). rewrite Es.
          rewrite F at 1. rewrite app_assoc, firstn_skipn; auto. }
      destruct (IH pre' suf eq_refl Hs St)
        as (a & w' & cap' & b & E' & I & M & B).
      exists (w ++ a), w', cap', b. rewrite E'.
      rewrite <- app_assoc, !length_app in *.
      repeat split; auto; simpl; auto; lia.
Qed.

(** * Properties of the floats *)

Module FloatFacts.

Import Float.
Local Open Scope Q_scope.

Lemma rne_floor x : (Qfloor x <= rne x <= Qfloor x + 1)%Z.
Proof. unfold rne. destruct (_ ?= _); [destruct (Z.even _)| |]; lia. Qed.

Lemma rne_mono x y : x <= y -> (rne x <= rne y)%Z.
Proof.
  intros H. pose proof (Qfloor_resp_le _ _ H) as Hf.
  destruct (Z.eq_dec (Qfloor x) (Qfloor y)) as [E|NE].
  - unfold rne. rewrite <- E.
    destruct (x - inject_Z (Qfloor x) ?= 1 # 2) eqn:Cx;
    destruct (y - inject_Z (Qfloor x) ?= 1 # 2) eqn:Cy;
    try (destruct (Z.even (Qfloor x))); try lia;
    first [apply Qeq_alt in Cx | apply Qlt_alt in Cx | apply Qgt_alt in Cx];
    first [apply Qeq_alt in Cy | apply Qlt_alt in Cy | apply Qgt_alt in Cy];
    lra.
  - pose proof (rne_floor x). pose proof (rne_floor y). lia.
Qed.

Lemma rne_Z z : rne (inject_Z z) = z.
Proof.
  unfold rne. rewrite Qfloor_Z.
  assert (H : inject_Z z - inject_Z z < 1 # 2) by lra.
  rewrite Qlt_alt in H. rewrite H. reflexivity.
Qed.

Lemma pow2_pos e : 0 < pow2 e.
Proof. apply Qpower_0_lt. reflexivity. Qed.

Lemma pow2_add a b : pow2 (a + b) == pow2 a * pow2 b.
Proof. apply Qpower_plus. discriminate. Qed.

Lemma pow2_le a b : (a <= b)%Z -> pow2 a <= pow2 b.
Proof. intros; apply Qpower_le_compat_l; auto. discriminate. Qed.

Lemma pow2_lt a b : (a < b)%Z -> pow2 a < pow2 b.
Proof. intros; apply Qpower_lt_compat_l; auto. reflexivity. Qed.

Lemma pow2_lt_inv a b : pow2 a < pow2 b -> (a < b)%Z.
Proof. intros; apply (Qpower_lt_compat_l_inv 2); auto. reflexivity. Qed.

Lemma pow2_succ a : pow2 (a + 1) == 2 * pow2 a.
Proof. rewrite pow2_add. unfold pow2 at 2. simpl. lra. Qed.

Lemma pow2_Z n : (0 <= n)%Z -> inject_Z (2 ^ n) == pow2 n.
Proof. intros; apply Zpower_Qpower; auto. Qed.

Lemma ilog2_spec x : 0 < x -> pow2 (ilog2 x) <= x /\ x < pow2 (ilog2 x + 1).
Proof.
  intros Hx. destruct x as [n d].
  assert (Hn : (0 < n)%Z).
  { unfold Qlt in Hx; simpl in Hx; lia. }
  unfold ilog2. cbn [Qnum Qden].
  set (ln := Z.log2 n). set (ld := Z.log2 (Zpos d)).
  pose proof (Z.log2_nonneg n) as Hln0.
  pose proof (Z.log2_nonneg (Zpos d)) as Hld0.
  destruct (Z.log2_spec n Hn) as [Hn1 Hn2].
  destruct (Z.log2_spec (Zpos d) eq_refl) as [Hd1 Hd2].
  fold ln in Hn1, Hn2, Hln0. fold ld in Hd1, Hd2, Hld0.
  rewrite Zle_Qle, pow2_Z in Hn1, Hd1 by auto.
  rewrite Zlt_Qlt, pow2_Z in Hn2, Hd2 by lia.
  unfold Z.succ in Hn2, Hd2. rewrite pow2_succ in Hn2, Hd2.
  set (N := inject_Z n) in *. set (D := inject_Z (Zpos d)) in *.
  set (A := pow2 ln) in *. set (B := pow2 ld) in *.
  assert (HB : 0 < B) by apply pow2_pos.
  assert (HA : 0 < A) by apply pow2_pos.
  assert (HD : 0 < D) by lra.
  set (x := n # d).
  assert (Ex : x * D == N).
  { unfold x, N, D. rewrite (Qmake_Qdiv n d). field. fold D. lra. }
  set (k := (ln - ld)%Z).
  assert (HP : 0 < pow2 k) by apply pow2_pos.
  assert (EP : pow2 k * B == A).
  { unfold k, A, B, pow2. rewrite Qpower_minus by discriminate. field.
    apply Qpower_not_0. discriminate. }
  assert (x_pos : 0 < x) by exact Hx.
  destruct (Qle_bool (pow2 k) x) eqn:C.
  - apply Qle_bool_iff in C. split; auto.
    rewrite pow2_succ. 
    destruct (Qlt_le_dec x (2 * pow2 k)) as [|Hge]; auto. exfalso.
    assert (2 * pow2 k * D <= x * D) by (apply Qmult_le_compat_r; lra).
    assert (pow2 k * B <= pow2 k * D) by (apply Qmult_le_l; lra).
    lra.
  - assert (C' : x < pow2 k).
    { apply Qnot_le_lt; intros H; apply Qle_bool_iff in H; congruence. }
    replace (k - 1 + 1)%Z with k by lia. split; auto.
    assert (E2 : pow2 k == 2 * pow2 (k - 1)).
    { rewrite <- pow2_succ. replace (k - 1 + 1)%Z with k by lia. reflexivity. }
    destruct (Qlt_le_dec x (pow2 (k - 1))) as [Hlt|]; auto. exfalso.
    assert (HP1 : 0 < pow2 (k - 1)) by apply pow2_pos.
    assert (x * D < pow2 (k - 1) * D) by (apply Qmult_lt_compat_r; lra).
    assert (pow2 (k - 1) * D < pow2 (k - 1) * (2 * B))
      by (apply Qmult_lt_l; lra).
    assert (E3 : pow2 k * B == 2 * pow2 (k - 1) * B) by (rewrite E2; ring).
    lra.
Qed.

Lemma ilog2_unique x k : pow2 k <= x -> x < pow2 (k + 1) -> ilog2 x = k.
Proof.
  intros H1 H2.
  assert (Hx : 0 < x) by (pose proof (pow2_pos k); lra).
  destruct (ilog2_spec x Hx) as [S1 S2].
  assert (pow2 k < pow2 (ilog2 x + 1)) by lra.
  assert (pow2 (ilog2 x) < pow2 (k + 1)) by lra.
  apply pow2_lt_inv in H, H0. lia.
Qed.

Lemma ilog2_mono x y : 0 < x -> x <= y -> (ilog2 x <= ilog2 y)%Z.
Proof.
  intros Hx H.
  destruct (ilog2_spec x Hx) as [S1 S2].
  destruct (ilog2_spec y) as [T1 T2]; [lra|].
  assert (pow2 (ilog2 x) < pow2 (ilog2 y + 1)) by lra.
  apply pow2_lt_inv in H0. lia.
Qed.

Lemma ulp_exp_mono x y : 0 < x -> x <= y -> (ulp_exp x <= ulp_exp y)%Z.
Proof. intros Hx H. unfold ulp_exp. pose proof (ilog2_mono x y Hx H). lia. Qed.

Lemma round_pos_nonneg x : 0 <= x -> 0 <= round_pos x.
Proof.
  intros Hx. unfold round_pos.
  pose proof (pow2_pos (ulp_exp x)) as Hp.
  apply Qmult_le_0_compat; [|lra].
  change 0 with (inject_Z 0). rewrite <- Zle_Qle.
  rewrite <- (rne_Z 0). apply rne_mono. 
  apply Qle_shift_div_l; auto. change (inject_Z 0) with 0. lra.
Qed.

Lemma round_pos_mono x y : 0 < x -> x <= y -> round_pos x <= round_pos y.
Proof.
  intros Hx H. unfold round_pos.
  pose proof (ulp_exp_mono x y Hx H) as He.
  set (ex := ulp_exp x) in *. set (ey := ulp_exp y) in *.
  pose proof (pow2_pos ex) as Px. pose proof (pow2_pos ey) as Py.
  destruct (Z.eq_dec ex ey) as [E|NE].
  - rewrite <- E. apply Qmult_le_compat_r; [|lra].
    rewrite <- Zle_Qle. apply rne_mono.
    apply Qmult_le_compat_r; auto.
    apply Qlt_le_weak, Qinv_lt_0_compat; auto.
  - assert (Hlt : (ex + 1 <= ey)%Z) by lia.
    (* y is normal with exponent ey: its significand is at least 2^52 *)
    assert (Ey : ey = (ilog2 y - 52)%Z) by (unfold ey, ulp_exp in *; lia).
    destruct (ilog2_spec x Hx) as [_ X2].
    destruct (ilog2_spec y) as [Y1 _]; [lra|].
    assert (Hx53 : x / pow2 ex <= inject_Z (2 ^ 53)).
    { apply Qle_shift_div_r; auto. rewrite pow2_Z by lia. rewrite <- pow2_add.
      apply Qlt_le_weak. eapply Qlt_le_trans; [exact X2|].
      apply pow2_le. unfold ex, ulp_exp. lia. }
    assert (Hy52 : inject_Z (2 ^ 52) <= y / pow2 ey).
    { apply Qle_shift_div_l; auto. rewrite pow2_Z by lia. rewrite <- pow2_add.
      eapply Qle_trans; [|exact Y1]. apply pow2_le. lia. }
    apply rne_mono in Hx53, Hy52. rewrite rne_Z in Hx53, Hy52.
    rewrite Zle_Qle in Hx53, Hy52. rewrite pow2_Z in Hx53, Hy52 by lia.
    apply Qle_trans with (pow2 53 * pow2 ex).
    { apply Qmult_le_compat_r; lra. }
    apply Qle_trans with (pow2 52 * pow2 ey).
    { rewrite <- !pow2_add. apply pow2_le. lia. }
    apply Qmult_le_compat_r; lra.
Qed.

Lemma rnd_mono x y : x <= y -> rnd x <= rnd y.
Proof.
  intros H. unfold rnd.
  destruct (x ?= 0) eqn:Cx; destruct (y ?= 0) eqn:Cy;
    first [apply Qeq_alt in Cx | apply Qlt_alt in Cx | apply Qgt_alt in Cx];
    first [apply Qeq_alt in Cy | apply Qlt_alt in Cy | apply Qgt_alt in Cy];
    try lra.
  - apply round_pos_nonneg; lra.
  - pose proof (round_pos_nonneg (- x)). lra.
  - pose proof (round_pos_mono (- y) (- x)). lra.
  - pose proof (round_pos_nonneg (- x)). pose proof (round_pos_nonneg y). lra.
  - apply round_pos_mono; lra.
Qed.

Lemma of_Q_between lo hi x :
  representable lo -> representable hi ->
  - pow2 1024 < lo -> hi < pow2 1024 -> lo <= x <= hi ->
  exists q, of_Q x = Fin q /\ lo <= q <= hi.
Proof.
  unfold representable; intros Rlo Rhi Hlo Hhi [H1 H2].
  apply rnd_mono in H1, H2. rewrite Rlo in H1. rewrite Rhi in H2.
  unfold of_Q.
  destruct (Qle_bool (pow2 1024) (rnd x)) eqn:C1.
  { apply Qle_bool_iff in C1. lra. }
  destruct (Qle_bool (rnd x) (- pow2 1024)) eqn:C2.
  { apply Qle_bool_iff in C2. lra. }
  exists (Qred (rnd x)). split; [reflexivity|].
  rewrite Qred_correct. auto.
Qed.

Lemma of_Q_above lo x :
  representable lo -> - pow2 1024 < lo -> lo <= x ->
  leb (Fin lo) (of_Q x) = true.
Proof.
  unfold representable; intros Rlo Hlo H.
  apply rnd_mono in H. rewrite Rlo in H.
  unfold of_Q.
  destruct (Qle_bool (pow2 1024) (rnd x)) eqn:C1; [reflexivity|].
  destruct (Qle_bool (rnd x) (- pow2 1024)) eqn:C2.
  { apply Qle_bool_iff in C2. lra. }
  simpl. apply Qle_bool_iff. rewrite Qred_correct. auto.
Qed.

Lemma representable_0 : representable 0.
Proof. reflexivity. Qed.
Lemma representable_1 : representable 1.
Proof. vm_compute. reflexivity. Qed.
Lemma representable_100 : representable 100.
Proof. vm_compute. reflexivity. Qed.

Lemma pow2_1024_big : 10000 < pow2 1024.
Proof. vm_compute. reflexivity. Qed.

Lemma leb_refl x : is_nan x = false -> leb x x = true.
Proof.
  destruct x; simpl; auto; try discriminate.
  intros _. apply Qle_bool_iff. lra.
Qed.

Lemma leb_trans x y z : leb x y = true -> leb y z = true -> leb x z = true.
Proof.
  destruct x, y, z; simpl; auto; try discriminate.
  rewrite !Qle_bool_iff. lra.
Qed.

Lemma leb_total x y :
  is_nan x = false -> is_nan y = false -> leb x y = true \/ leb y x = true.
Proof.
  destruct x, y; simpl; auto; try discriminate. intros _ _.
  rewrite !Qle_bool_iff. destruct (Qlt_le_dec q q0); [left|right]; lra.
Qed.

Lemma gtb_leb x y :
  is_nan x = false -> is_nan y = false -> gtb x y = negb (leb x y).
Proof. destruct x, y; simpl; auto; discriminate. Qed.

Lemma of_Q_not_nan x : is_nan (of_Q x) = false.
Proof.
  unfold of_Q. destruct (Qle_bool _ _); auto. destruct (Qle_bool _ _); auto.
Qed.

Lemma max_from_spec l : forall m,
  forallb (fun x => negb (is_nan x)) (m :: l) = true ->
  In (max_from m l) (m :: l)
  /\ Forall (fun x => leb x (max_from m l) = true) (m :: l).
Proof.
  induction l as [|x l IH]; intros m H; simpl in H.
  - apply andb_prop in H as [Hm _]. apply negb_true_iff in Hm.
    simpl; split; auto. constructor; auto. apply leb_refl; auto.
  - apply andb_prop in H as [Hm H]. pose proof H as H'.
    apply andb_prop in H' as [Hx Hl].
    apply negb_true_iff in Hm, Hx.
    cbn [max_from]. rewrite gtb_leb by auto.
    destruct (leb x m) eqn:C; cbn [negb].
    + destruct (IH m) as [I F]; [simpl; rewrite Hm, Hl; auto|].
      split.
      * destruct I as [I|I]; [left; auto|right; right; auto].
      * inversion F as [|? ? Fm Fl]; subst.
        constructor; auto. constructor; auto.
        eapply leb_trans; eauto.
    + destruct (IH x) as [I F]; [exact H|].
      split; [right; exact I|].
      inversion F as [|? ? Fx Fl]; subst. constructor; auto.
      destruct (leb_total x m Hx Hm) as [T|T]; [congruence|].
      eapply leb_trans; eauto.
Qed.

(** The model agrees with the binary64 arithmetic of [SpecFloat] on the
    operations of the program. *)
Example agrees_div :
  of_spec (SFdiv 53 1024 (spec_int 1) (spec_int 3)) = of_Q (1 # 3)
  /\ truediv 2 3 = Ok (of_spec (SFdiv 53 1024 (spec_int 2) (spec_int 3)))
  /\ truediv 1 160
     = Ok (of_spec (SFdiv 53 1024 (spec_int 1) (spec_int 160))).
Proof. vm_compute. auto. Qed.

Example agrees_mul :
  of_spec (SFmul 53 1024 (SFdiv 53 1024 (spec_int 2) (spec_int 3))
                 (spec_int 100))
  = mul (of_Q (2 # 3)) (of_nat 100)
  /\ of_spec (SFmul 53 1024 (SFdiv 53 1024 (spec_int 1) (spec_int 160))
                    (spec_int 100))
     = mul (of_Q (1 # 160)) (of_nat 100).
Proof. vm_compute. auto. Qed.

Example agrees_sub :
  of_spec (SFsub 53 1024 (spec_int 5) (spec_int 1)) = sub (Fin 5) one
  /\ of_spec (SFsub 53 1024 (SFdiv 53 1024 (spec_int 1) (spec_int 3))
                    (spec_int 1))
     = sub (of_Q (1 # 3)) one.
Proof. vm_compute. auto. Qed.

(** [float("0.1")], [float("66.67")] and [round(2/3*100, 2)]. *)
Example agrees_decimal :
  of_str "0.1" = Ok (of_spec (SFdiv 53 1024 (spec_int 1) (spec_int 10)))
  /\ of_str "66.67"
     = Ok (of_spec (SFdiv 53 1024 (spec_int 6667) (spec_int 100)))
  /\ round2 (mul (of_Q (2 # 3)) (of_nat 100))
     = of_spec (SFdiv 53 1024 (spec_int 6667) (spec_int 100)).
Proof. vm_compute. auto. Qed.

End FloatFacts.

(** * Properties of characters and strings *)

Module CharFacts.

Import Char.

Lemma In_all c : In c all.
Proof.
  unfold all. rewrite <- (ascii_nat_embedding c).
  apply in_map, in_seq. pose proof (nat_ascii_bounded c). lia.
Qed.

Lemma for_all_spec f : for_all f = true -> forall c, f c = true.
Proof.
  unfold for_all; intros H c.
  rewrite forallb_forall in H. apply H, In_all.
Qed.

Lemma subclass_spec p q :
  subclass p q = true -> forall c, p c = true -> q c = true.
Proof.
  intros H c Hp. pose proof (for_all_spec _ H c) as Hc. simpl in Hc.
  rewrite Hp in Hc. exact Hc.
Qed.

Lemma disjoint_spec p q :
  disjoint p q = true -> forall c, p c = true -> q c = false.
Proof.
  intros H c Hp. pose proof (for_all_spec _ H c) as Hc. simpl in Hc.
  rewrite Hp in Hc. destruct (q c); auto; discriminate.
Qed.

Lemma forallb_subclass p q w :
  subclass p q = true -> forallb p w = true -> forallb q w = true.
Proof.
  intros H. induction w as [|c w IH]; simpl; auto.
  intros Hw; apply andb_prop in Hw as [Hc Hw].
  rewrite (subclass_spec _ _ H c Hc), IH; auto.
Qed.

End CharFacts.

(** The words of a pattern are made of the characters of its classes. *)
Lemma lang_forallb q r w :
  forallb (fun p => Char.subclass p q) (classes r) = true ->
  lang r w -> forallb q w = true.
Proof.
  intros H L; revert H.
  induction L as [|p c Hc|r1 r2 w1 w2 _ IH1 _ IH2|r1 r2 w _ IH|r1 r2 w _ IH
                 |p lo w Hw Hlo|r w _ IH]; simpl; intros H; auto.
  - apply andb_prop in H as [H _].
    rewrite (CharFacts.subclass_spec _ _ H c Hc); auto.
  - rewrite forallb_app in *. apply andb_prop in H as [Ha Hb].
    rewrite IH1, IH2; auto.
  - rewrite forallb_app in H. apply andb_prop in H as [Ha Hb]; auto.
  - rewrite forallb_app in H. apply andb_prop in H as [Ha Hb]; auto.
  - apply andb_prop in H as [H _].
    exact (CharFacts.forallb_subclass _ _ _ H Hw).
Qed.

Lemma lang_Eps_inv w : lang Eps w -> w = [].
Proof. inversion 1; auto. Qed.

Lemma lang_Chr_inv p w : lang (Chr p) w -> exists c, w = [c] /\ p c = true.
Proof. inversion 1; subst; eauto. Qed.

Lemma lang_Seq_inv r1 r2 w :
  lang (Seq r1 r2) w -> exists w1 w2, w = w1 ++ w2 /\ lang r1 w1 /\ lang r2 w2.
Proof. inversion 1; subst; eauto. Qed.

Lemma lang_Alt_inv r1 r2 w : lang (Alt r1 r2) w -> lang r1 w \/ lang r2 w.
Proof. inversion 1; subst; auto. Qed.

Lemma lang_Rep_inv p lo w :
  lang (Rep p lo) w -> forallb p w = true /\ lo <= length w.
Proof. inversion 1; subst; auto. Qed.

Lemma lang_Grp_inv r w : lang (Grp r) w -> lang r w.
Proof. inversion 1; subst; auto. Qed.

(** Taking a membership in the words of a pattern apart. *)
Ltac inv_lang :=
  repeat match goal with
  | H : lang Eps _ |- _ => apply lang_Eps_inv in H; subst
  | H : lang (Chr _) _ |- _ =>
      apply lang_Chr_inv in H; destruct H as (? & -> & H)
  | H : lang (Seq _ _) _ |- _ =>
      apply lang_Seq_inv in H; destruct H as (? & ? & -> & ? & ?)
  | H : lang (Alt _ _) _ |- _ => apply lang_Alt_inv in H; destruct H as [H|H]
  | H : lang (Opt _) _ |- _ => unfold Opt in H
  | H : lang (Rep _ _) _ |- _ => apply lang_Rep_inv in H; destruct H as [? ?]
  | H : lang (Grp _) _ |- _ => apply lang_Grp_inv in H
  end.

Module StrFacts.

Import Str.

Lemma eqb_eq a b : eqb a b = true <-> a = b.
Proof.
  unfold eqb. destruct (list_eq_dec ascii_dec a b); split; auto; discriminate.
Qed.

Lemma eqb_refl a : eqb a a = true.
Proof. apply eqb_eq; auto. Qed.

Lemma split_on_none {A} (p : A -> bool) s :
  forallb (fun c => negb (p c)) s = true -> split_on p s = [s].
Proof.
  induction s as [|c s IH]; simpl; auto.
  intros H; apply andb_prop in H as [Hc Hs].
  apply negb_true_iff in Hc. rewrite Hc, IH; auto.
Qed.

Lemma split_on_app {A} (p : A -> bool) a c b :
  forallb (fun c => negb (p c)) a = true -> p c = true ->
  split_on p (a ++ c :: b) = a :: split_on p b.
Proof.
  intros Ha Hc. induction a as [|x a IH]; simpl.
  - rewrite Hc; auto.
  - simpl in Ha. apply andb_prop in Ha as [Hx Ha].
    apply negb_true_iff in Hx. rewrite Hx, IH; auto.
Qed.

Lemma join_nil_parts {A} (sep : list A) l :
  Forall (fun p => p = []) l -> (length l <= 1)%nat -> join sep l = [].
Proof.
  destruct l as [|p [|q l]]; simpl; auto; intros F H.
  - inversion F; auto.
  - lia.
Qed.

End StrFacts.

(** * Properties of the paths *)

Module PathFacts.

Import Path.

Lemma rfind_from_bounds c s : forall i last,
  (last < i)%Z -> (-1 <= last)%Z ->
  (-1 <= Str.rfind_from c s i last < i + Z.of_nat (length s))%Z.
Proof.
  induction s as [|x s IH]; intros i last H1 H2; cbn [Str.rfind_from length].
  - lia.
  - destruct (Ascii.eqb x c).
    + specialize (IH (i + 1)%Z i). lia.
    + specialize (IH (i + 1)%Z last). lia.
Qed.

Lemma rfind_bounds c s : (-1 <= Str.rfind c s < Z.of_nat (length s))%Z.
Proof.
  unfold Str.rfind. pose proof (rfind_from_bounds c s 0 (-1)). lia.
Qed.

(** With enough rounds, the loop finds a character other than a dot
    exactly when there is one between the two indices. *)
Lemma has_stem_spec p dotIndex : forall n filenameIndex,
  (dotIndex - filenameIndex <= Z.of_nat n)%Z ->
  has_stem n filenameIndex dotIndex p = true
  <-> exists i, (filenameIndex <= i < dotIndex)%Z
                /\ Str.eqb (Str.at_ i p) "." = false.
Proof.
  induction n as [|n IH]; intros f Hn; cbn [has_stem].
  - split; [discriminate|]. intros (i & Hi & _). lia.
  - destruct (Z.ltb_spec f dotIndex) as [Lt|Ge].
    + destruct (Str.eqb (Str.at_ f p) ".") eqn:E; cbn [negb].
      * rewrite IH by lia. split; intros (i & Hi & Ei).
        -- exists i. split; [lia|exact Ei].
        -- exists i. split; [|exact Ei].
           destruct (Z.eq_dec i f) as [->|]; [congruence|lia].
      * split; [|reflexivity]. intros _. exists f. split; [lia|exact E].
    + split; [discriminate|]. intros (i & Hi & _). lia.
Qed.

(** The rounds that [splitext] gives the loop are enough. *)
Lemma splitext_rounds p :
  (Str.rfind "." p - (Str.rfind "/" p + 1) <= Z.of_nat (length p))%Z.
Proof.
  pose proof (rfind_bounds "." p). pose proof (rfind_bounds "/" p). lia.
Qed.

End PathFacts.

(** * Properties of the patterns *)

Lemma nullable_EMAIL : nullable EMAIL_REGEX = false.
Proof. reflexivity. Qed.

Lemma nullable_PHONE : nullable PHONE_REGEX = false.
Proof. reflexivity. Qed.

Lemma nullable_EXPERIENCE : nullable EXPERIENCE_REGEX = false.
Proof. reflexivity. Qed.

Lemma all_digits_intro w :
  forallb Char.is_digit w = true -> 1 <= length w ->
  Float.all_digits w = true.
Proof.
  unfold Float.all_digits; intros -> H. destruct w; simpl in *; auto; lia.
Qed.

Lemma all_digits_elim w :
  Float.all_digits w = true -> forallb Char.is_digit w = true /\ w <> [].
Proof.
  unfold Float.all_digits; intros H; apply andb_prop in H as [T D].
  split; auto. destruct w; [discriminate|congruence].
Qed.

(** The numerals: digits, or digits, a point and digits. *)
Lemma lang_NUMBER g :
  lang NUMBER g ->
  Float.all_digits g = true
  \/ exists ip fp, g = ip ++ "." ++ fp
                   /\ Float.all_digits ip = true
                   /\ Float.all_digits fp = true.
Proof.
  unfold NUMBER; intros L. inv_lang.
  - right.
    match goal with
    | Hc : Char.same "." ?c = true |- _ => apply Ascii.eqb_eq in Hc; subst c
    end.
    eexists _, _; split; [reflexivity|].
    split; apply all_digits_intro; assumption.
  - left. rewrite app_nil_r. apply all_digits_intro; assumption.
Qed.

Lemma digits_no_point w :
  forallb Char.is_digit w = true ->
  forallb (fun c => negb (Char.same "." c)) w = true.
Proof.
  apply CharFacts.forallb_subclass. vm_compute. reflexivity.
Qed.

Lemma of_str_digits ip :
  Float.all_digits ip = true ->
  Float.of_str ip = Ok (Float.of_Q (inject_Z (Float.digits_val 0 ip))).
Proof.
  intros H. unfold Float.of_str.
  destruct (all_digits_elim _ H) as [D _].
  rewrite (StrFacts.split_on_none _ _ (digits_no_point _ D)), H. reflexivity.
Qed.

Lemma of_str_point ip fp :
  Float.all_digits ip = true -> Float.all_digits fp = true ->
  Float.of_str (ip ++ "." ++ fp)
  = Ok (Float.of_Q (inject_Z (Float.digits_val 0 (ip ++ fp))
                    / inject_Z (10 ^ Z.of_nat (length fp)))).
Proof.
  intros Hi Hf. unfold Float.of_str.
  destruct (all_digits_elim _ Hi) as [Di _].
  destruct (all_digits_elim _ Hf) as [Df _].
  change (ip ++ "." ++ fp) with (ip ++ "."%char :: fp).
  rewrite (StrFacts.split_on_app (Char.same ".") ip "."%char fp
             (digits_no_point _ Di) eq_refl).
  rewrite (StrFacts.split_on_none _ _ (digits_no_point _ Df)), Hi, Hf.
  reflexivity.
Qed.

Lemma numeral_ok g :
  lang NUMBER g ->
  Float.of_str g = Ok (Float.of_numeral g)
  /\ Float.is_nan (Float.of_numeral g) = false.
Proof.
  intros L. unfold Float.of_numeral.
  destruct (lang_NUMBER _ L) as [H|(ip & fp & -> & Hi & Hf)].
  - rewrite (of_str_digits _ H). split; auto. apply FloatFacts.of_Q_not_nan.
  - rewrite (of_str_point _ _ Hi Hf). split; auto.
    apply FloatFacts.of_Q_not_nan.
Qed.

Lemma floats_of_numerals l :
  Forall (lang NUMBER) l -> floats_of l = Ok (map Float.of_numeral l).
Proof.
  induction 1 as [|g l Hg _ IH]; simpl; auto.
  destruct (numeral_ok _ Hg) as [-> _]. rewrite IH. reflexivity.
Qed.

(** The hits of the experience pattern: a numeral, kept by the group,
    then white space and a unit. *)
Lemma experience_hits text :
  Forall (fun h : hit =>
            exists g u, fst h = g ++ u /\ snd h = Some g
                        /\ lang NUMBER g /\ lang TAIL u)
         (finditer EXPERIENCE_REGEX text).
Proof.
  pose proof (scan_hits _ _ _ (finditer_scan EXPERIENCE_REGEX text eq_refl))
    as H.
  eapply Forall_impl; [|exact H].
  intros [w cap] (rest & M); simpl in *.
  destruct (match_at_group NUMBER TAIL _ _ _ eq_refl M)
    as (g & u & E & Lg & Lu & ->).
  rewrite app_assoc in E. apply app_inv_tail in E.
  exists g, u; auto.
Qed.

Lemma experience_captures text :
  Forall (lang NUMBER) (findall_group EXPERIENCE_REGEX text).
Proof.
  unfold findall_group. apply Forall_map.
  eapply Forall_impl; [|apply experience_hits].
  intros h (g & u & _ & -> & L & _); exact L.
Qed.

Lemma score_row filename text keywords exp_req relax domains tools skillsets :
  score filename text keywords exp_req relax domains tools skillsets
  = ret (row filename text keywords exp_req relax domains tools skillsets).
Proof.
  unfold score, row, experience_ok, match_percentage, percentage, threshold,
    experience_years.
  rewrite (floats_of_numerals _ (experience_captures text)).
  destruct (extract_contacts text) as [[name email] phone].
  destruct (map Float.of_numeral (findall_group EXPERIENCE_REGEX text))
    as [|x xs]; destruct keywords as [|k ks]; reflexivity.
Qed.

(** * Properties of the program *)

Section ProgramFacts.

Variable lib : libraries.

(** The extractor never raises. *)
Lemma extract_total path :
  extract_text_from_file lib path
  = (warnings_of lib path, Ok (text_of lib path)).
Proof.
  unfold text_of, warnings_of, extract_text_from_file.
  destruct (Str.eqb _ ".pdf").
  { destruct (pdf_extract lib path); reflexivity. }
  destruct (Str.eqb _ ".docx"); [|reflexivity].
  unfold docx_fallback.
  destruct (docx_paragraphs lib path); [reflexivity|].
  destruct (zip_read lib path _) as [bytes|]; [|reflexivity].
  cbn [lift bind]. destruct (xml_fromstring lib bytes); reflexivity.
Qed.

Lemma extraction_fails_text path :
  extraction_fails lib path = true -> text_of lib path = [].
Proof.
  unfold extraction_fails, text_of, extract_text_from_file, extension.
  destruct (Str.eqb _ ".pdf").
  { destruct (pdf_extract lib path); [discriminate|reflexivity]. }
  destruct (Str.eqb _ ".docx"); [|discriminate].
  unfold docx_fallback.
  destruct (docx_paragraphs lib path); [discriminate|].
  destruct (zip_read lib path _) as [bytes|]; [|reflexivity].
  cbn [lift bind]. destruct (xml_fromstring lib bytes);
    [discriminate|reflexivity].
Qed.

Variables (keywords : list str) (exp_req : option Float.float) (relax : bool)
  (domains tools skillsets : list str).

Lemma loop_rows total paths : forall i acc,
  for_enumerate i paths acc
    (fun i path =>
       text <- extract_text_from_file lib path ;;
       r <- score (Path.basename path) text keywords exp_req relax
              domains tools skillsets ;;
       ratio <- lift (Float.truediv i (S total)) ;;
       emit (BarSet ratio) ;;;
       ret r)
  = (loop_events lib (S total) i paths,
     Ok (acc ++ map (row_of lib keywords exp_req relax domains tools skillsets)
                    paths)).
Proof.
  induction paths as [|p ps IH]; intros i acc; cbn [for_enumerate map].
  - unfold ret. rewrite app_nil_r. reflexivity.
  - rewrite extract_total. cbn [bind]. rewrite score_row.
    cbn [bind ret lift emit Float.truediv]. rewrite IH.
    cbn [loop_events app]. rewrite <- !app_assoc. reflexivity.
Qed.

Lemma run_matching_rows paths :
  run_matching lib paths keywords exp_req relax domains tools skillsets
  = (LogInfo (length paths) :: BarCreate
       :: loop_events lib (length paths) 1 paths,
     Ok (map (row_of lib keywords exp_req relax domains tools skillsets)
             paths)).
Proof.
  unfold run_matching. destruct paths as [|p ps]; [reflexivity|].
  cbn [length]. set (body := fun (i : nat) (path : str) => _).
  pose proof (loop_rows (length ps) (p :: ps) 1 []) as H.
  fold body in H. cbn [bind emit]. rewrite H. reflexivity.
Qed.

End ProgramFacts.

(** * The report *)

Lemma filter_sublist {A} (f : A -> bool) l : sublist (filter f l) l.
Proof.
  induction l as [|x l IH]; simpl; [constructor|].
  destruct (f x); [apply sublist_keep|apply sublist_skip]; exact IH.
Qed.

Lemma sublist_length {A} (l1 l2 : list A) :
  sublist l1 l2 -> length l1 <= length l2.
Proof. induction 1; simpl; lia. Qed.

Lemma sublist_incl {A} (l1 l2 : list A) : sublist l1 l2 -> incl l1 l2.
Proof.
  induction 1 as [|x l1 l2 _ IH|x l1 l2 _ IH]; intros y Hy; simpl in *; auto.
  destruct Hy; auto.
Qed.

(** Claim C10.  For every text and every list of terms (keywords, domains,
    tools, skills) the matched list is a sublist of the list of terms, in
    the order of that list and not in the order of the text; every matched
    term is one of the terms, and no more keywords are matched than were
    given.  The row holds each matched list joined with [;]. *)
Theorem matched_terms_sublist text keywords domains tools skillsets :
  sublist (matched keywords text) keywords
  /\ sublist (matched domains text) domains
  /\ sublist (matched tools text) tools
  /\ sublist (matched skillsets text) skillsets
  /\ incl (matched keywords text) keywords
  /\ length (matched keywords text) <= length keywords
  /\ matched (words ["Verilog"; "TCL"]) "TCL scripts, then Verilog"
     = words ["Verilog"; "TCL"]
  /\ forall filename exp_req relax,
       exists r,
         score filename text keywords exp_req relax domains tools skillsets
         = ([], Ok r)
         /\ Matched_Keywords r = Str.join ";" (matched keywords text)
         /\ Domain r = Str.join ";" (matched domains text)
         /\ Tools r = Str.join ";" (matched tools text)
         /\ Skillset r = Str.join ";" (matched skillsets text).
Proof.
  unfold matched.
  repeat split; try apply filter_sublist.
  - apply sublist_incl, filter_sublist.
  - apply sublist_length, filter_sublist.
  - intros filename exp_req relax. rewrite score_row.
    eexists; split; [reflexivity|]. repeat split.
Qed.

(** Claim C9.  Scoring is a function of the text and the criteria alone: it
    emits nothing, never raises, and its value is [row].  In a batch the
    record of a document depends on that document only: permuting the
    paths permutes the records the same way, and equal paths at two
    positions of two runs give equal records. *)
Theorem records_independent lib keywords exp_req relax domains tools skillsets
    paths paths' :
  Permutation paths paths' ->
  exists events events' records records',
    run_matching lib paths keywords exp_req relax domains tools skillsets
    = (events, Ok records)
    /\ run_matching lib paths' keywords exp_req relax domains tools skillsets
       = (events', Ok records')
    /\ Permutation records records'
    /\ (forall i j, nth_error paths i = nth_error paths' j ->
                    nth_error records i = nth_error records' j)
    /\ (forall filename text,
          score filename text keywords exp_req relax domains tools skillsets
          = ([], Ok (row filename text keywords exp_req relax
                         domains tools skillsets)))
    /\ records = map (row_of lib keywords exp_req relax domains tools skillsets)
                     paths.
Proof.
  intros P. rewrite !run_matching_rows.
  do 4 eexists. split; [reflexivity|]. split; [reflexivity|].
  split; [apply Permutation_map; exact P|].
  split; [|split; [intros; apply score_row|reflexivity]].
  intros i j E. rewrite !nth_error_map, E. reflexivity.
Qed.

(** The two orders of two documents. *)
Lemma records_independent_witness :
  exists events events' records records',
    run_matching lib_ok (words ["a.pdf"; "b.docx"]) [] None false [] [] []
    = (events, Ok records)
    /\ run_matching lib_ok (words ["b.docx"; "a.pdf"]) [] None false [] [] []
       = (events', Ok records')
    /\ Permutation records records'.
Proof.
  destruct (records_independent lib_ok [] None false [] [] []
              (words ["a.pdf"; "b.docx"]) (words ["b.docx"; "a.pdf"]))
    as (e & e' & r & r' & H1 & H2 & H3 & _).
  - apply perm_swap.
  - exists e, e', r, r'; auto.
Defined.

Module PercentFacts.
Import Float FloatFacts.
Local Open Scope Q_scope.

Lemma of_nat_100 : of_nat 100 = Fin 100.
Proof. vm_compute. reflexivity. Qed.

Lemma of_Q_zero x : x == 0 -> of_Q x = Fin 0.
Proof.
  intros H. unfold of_Q, rnd. apply Qeq_alt in H. rewrite H. reflexivity.
Qed.

Lemma ratio_bounds m n :
  (m <= n)%nat -> (0 < n)%nat ->
  0 <= inject_Z (Z.of_nat m) / inject_Z (Z.of_nat n) <= 1.
Proof.
  intros Hmn Hn.
  assert (Hn' : 0 < inject_Z (Z.of_nat n)).
  { change 0 with (inject_Z 0). rewrite <- Zlt_Qlt. lia. }
  assert (Hm' : 0 <= inject_Z (Z.of_nat m)).
  { change 0 with (inject_Z 0). rewrite <- Zle_Qle. lia. }
  assert (Hmn' : inject_Z (Z.of_nat m) <= inject_Z (Z.of_nat n)).
  { rewrite <- Zle_Qle. lia. }
  split.
  - apply Qle_shift_div_l; [assumption|lra].
  - apply Qle_shift_div_r; [assumption|lra].
Qed.

Lemma percentage_bounds m n :
  (m <= n)%nat -> (0 < n)%nat ->
  exists q, percentage m n = Fin q /\ 0 <= q <= 100.
Proof.
  intros Hmn Hn. unfold percentage. rewrite of_nat_100.
  pose proof pow2_1024_big as Big.
  assert (Lo : - pow2 1024 < 0) by lra.
  assert (Hi1 : 1 < pow2 1024) by lra.
  assert (Hi100 : 100 < pow2 1024) by lra.
  destruct (of_Q_between 0 1 _ representable_0 representable_1 Lo Hi1
              (ratio_bounds m n Hmn Hn)) as (a & -> & Ha).
  cbn [mul].
  destruct (of_Q_between 0 100 (a * 100) representable_0 representable_100
              Lo Hi100) as (b & -> & Hb); [lra|].
  cbn [round2].
  assert (H1 : (0 <= rne (b * 100) <= 10000)%Z).
  { split.
    - rewrite <- (rne_Z 0). apply rne_mono.
      change (inject_Z 0) with 0. lra.
    - rewrite <- (rne_Z 10000). apply rne_mono.
      change (inject_Z 10000) with 10000. lra. }
  destruct H1 as [H1 H2]. rewrite Zle_Qle in H1, H2.
  apply (of_Q_between 0 100 _ representable_0 representable_100 Lo Hi100).
  change (inject_Z 0) with 0 in H1.
  change (inject_Z 10000) with 10000 in H2.
  split.
  - apply Qle_shift_div_l; [reflexivity|]. lra.
  - apply Qle_shift_div_r; [reflexivity|]. lra.
Qed.

End PercentFacts.

(** Claim C2.  The match percentage is [0.0] for an empty keyword list and
    [round(matched / total * 100, 2)] otherwise, where [total] is the
    length of the keyword list; it lies between 0 and 100, and the
    domains, tools and skills have no part in it. *)
Theorem match_percentage_formula filename text keywords exp_req relax
    domains tools skillsets :
  exists r,
    score filename text keywords exp_req relax domains tools skillsets
    = ([], Ok r)
    /\ match keywords with
       | [] => Match_Percentage r = Float.zero
       | _ :: _ =>
           exists ratio,
             Float.truediv (length (matched keywords text)) (length keywords)
             = Ok ratio
             /\ Match_Percentage r
                = Float.round2 (Float.mul ratio (Float.of_nat 100))
       end
    /\ (exists q, Match_Percentage r = Float.Fin q /\ (0 <= q <= 100)%Q)
    /\ (forall domains' tools' skillsets',
          exists r',
            score filename text keywords exp_req relax
                  domains' tools' skillsets' = ([], Ok r')
            /\ Match_Percentage r' = Match_Percentage r).
Proof.
  rewrite score_row. eexists; split; [reflexivity|].
  cbn [Match_Percentage row]. unfold match_percentage.
  split; [|split].
  - destruct keywords as [|k ks]; [reflexivity|].
    eexists; split; reflexivity.
  - destruct keywords as [|k ks].
    + exists 0%Q. split; [reflexivity|]. split; discriminate.
    + apply PercentFacts.percentage_bounds.
      * apply sublist_length, filter_sublist.
      * simpl; lia.
  - intros d t s. rewrite score_row. eexists; split; reflexivity.
Qed.

(** The scenario of the specification: one address, one keyword of two,
    six years. *)
Example scenario_jane :
  score "jane.pdf"
        "Contact: jane.doe@example.com, VLSI engineer with Verilog, 6 years experience."
        (words ["Verilog"; "TCL"]) (Some (Float.Fin 5)) false
        (words ["VLSI"]) (words ["Synopsys"; "Cadence"])
        (words ["Verilog"; "Python"])
  = ([], Ok {| Filename := "jane.pdf";
               Name := Str.points "Jane Doe";
               Email := "jane.doe@example.com";
               Phone := [];
               Domain := "VLSI";
               Tools := [];
               Skillset := "Verilog";
               Experience_Years := Float.Fin 6;
               Experience_Match := true;
               Matched_Keywords := "Verilog";
               Match_Percentage := Float.Fin 50 |}).
Proof. vm_compute. reflexivity. Qed.

(** Claim C5.  The extractor returns a string for every path and never
    raises.  When the extraction fails (the PDF extractor raises, or the
    DOCX reader raises and then the archive or the XML parser does) the
    text is empty and one warning carries the file name; a path whose
    extension is neither [.pdf] nor [.docx] gives the empty string; and a
    batch always runs to its end. *)
Theorem extraction_never_raises lib path :
  exists events text,
    extract_text_from_file lib path = (events, Ok text)
    /\ (extraction_fails lib path = true ->
        text = [] /\ exists e, events = [LogWarning (Path.basename path) e])
    /\ (Str.eqb (extension path) ".pdf" = false ->
        Str.eqb (extension path) ".docx" = false ->
        text = [] /\ events = [])
    /\ (forall paths keywords exp_req relax domains tools skillsets,
          exists events' records,
            run_matching lib paths keywords exp_req relax
                         domains tools skillsets = (events', Ok records)).
Proof.
  exists (warnings_of lib path), (text_of lib path).
  split; [apply extract_total|].
  unfold warnings_of, text_of, extraction_fails, extract_text_from_file,
    extension, docx_fallback.
  split; [|split].
  - destruct (Str.eqb _ ".pdf").
    { destruct (pdf_extract lib path); [discriminate|].
      intros _. split; [reflexivity|eexists; reflexivity]. }
    destruct (Str.eqb _ ".docx"); [|discriminate].
    destruct (docx_paragraphs lib path); [discriminate|].
    destruct (zip_read lib path _) as [bytes|].
    + cbn [lift bind]. destruct (xml_fromstring lib bytes); [discriminate|].
      intros _. split; [reflexivity|eexists; reflexivity].
    + intros _. split; [reflexivity|eexists; reflexivity].
  - intros -> ->. split; reflexivity.
  - intros. rewrite run_matching_rows. eauto.
Qed.

(** A corrupt PDF, and a file that is neither a PDF nor a DOCX. *)
Lemma extraction_never_raises_witness :
  (exists events text,
     extract_text_from_file lib_bad "cv.pdf" = (events, Ok text)
     /\ text = [])
  /\ (exists events text,
        extract_text_from_file lib_bad "notes.txt" = (events, Ok text)
        /\ text = [] /\ events = []).
Proof.
  split.
  - destruct (extraction_never_raises lib_bad "cv.pdf")
      as (ev & t & E & F & _).
    exists ev, t. split; [exact E|]. apply F. reflexivity.
  - destruct (extraction_never_raises lib_bad "notes.txt")
      as (ev & t & E & _ & U & _).
    exists ev, t. split; [exact E|]. apply U; reflexivity.
Defined.

(** On the empty text only the empty term is found. *)
Lemma search_empty_text t : search (escaped t) [] = negb (Str.truthy t).
Proof. destruct t; reflexivity. Qed.

Lemma matched_empty_text terms :
  Forall (fun t => t <> []) terms -> matched terms [] = [].
Proof.
  unfold matched. induction 1 as [|t l Ht _ IH]; cbn [filter]; auto.
  rewrite search_empty_text. destruct t; [congruence|]. exact IH.
Qed.

Lemma match_percentage_empty_text keywords :
  Forall (fun t => t <> []) keywords ->
  match_percentage keywords [] = Float.zero.
Proof.
  intros H. unfold match_percentage. rewrite (matched_empty_text _ H).
  destruct keywords as [|k ks]; [reflexivity|].
  unfold percentage. rewrite PercentFacts.of_Q_zero; [reflexivity|].
  cbn [length Z.of_nat]. apply Qmult_0_l.
Qed.

(** Claim C1.  [run_matching] returns one record for each path, in the
    order of the paths, for every list of paths, the empty one included.
    A document whose extraction fails still has its record: the contact
    fields are empty and the experience is zero, and when no term is the
    empty string the matched fields are empty and the percentage is
    zero. *)
Theorem one_record_per_document lib paths keywords exp_req relax
    domains tools skillsets :
  exists events records,
    run_matching lib paths keywords exp_req relax domains tools skillsets
    = (events, Ok records)
    /\ length records = length paths
    /\ map Filename records = map Path.basename paths
    /\ Forall2
         (fun path r =>
            extraction_fails lib path = true ->
            Name r = [] /\ Email r = [] /\ Phone r = []
            /\ Experience_Years r = Float.zero
            /\ (Forall (fun t => t <> [])
                       (keywords ++ domains ++ tools ++ skillsets) ->
                Domain r = [] /\ Tools r = [] /\ Skillset r = []
                /\ Matched_Keywords r = []
                /\ Match_Percentage r = Float.zero))
         paths records.
Proof.
  rewrite run_matching_rows. do 2 eexists. split; [reflexivity|].
  split; [apply length_map|]. split.
  - rewrite map_map. reflexivity.
  - induction paths as [|p ps IH]; simpl; constructor; auto.
    intros F. unfold row_of. rewrite (extraction_fails_text _ _ F).
    repeat split.
    all: cbn [Domain Tools Skillset Matched_Keywords Match_Percentage row].
    all: repeat match goal with
         | H : Forall _ (_ ++ _) |- _ => apply Forall_app in H as [? ?]
         end.
    all: rewrite ?matched_empty_text by assumption; auto.
    apply match_percentage_empty_text; assumption.
Qed.

(** A batch whose first document cannot be read. *)
Lemma one_record_per_document_witness :
  exists events r1 r2,
    run_matching lib_bad (words ["cv.pdf"; "notes.txt"]) (words ["Verilog"])
                 (Some (Float.Fin 5)) false (words ["VLSI"]) [] []
    = (events, Ok [r1; r2])
    /\ Name r1 = [] /\ Experience_Years r1 = Float.zero
    /\ Matched_Keywords r1 = [] /\ Match_Percentage r1 = Float.zero.
Proof.
  destruct (one_record_per_document lib_bad (words ["cv.pdf"; "notes.txt"])
              (words ["Verilog"]) (Some (Float.Fin 5)) false
              (words ["VLSI"]) [] [])
    as (ev & rs & E & L & _ & F).
  destruct rs as [|r1 [|r2 [|r3 rs]]]; try discriminate.
  exists ev, r1, r2. split; [exact E|].
  inversion F as [|? ? ? ? F1 _]; subst.
  destruct (F1 eq_refl) as (N & _ & _ & X & T).
  destruct T as (_ & _ & _ & K & P).
  { repeat constructor; discriminate. }
  auto.
Defined.

(** * The fallback of the DOCX branch *)

Lemma endswith_spec suffix s :
  endswith suffix s = true <-> exists pre, s = pre ++ suffix.
Proof.
  unfold endswith. split.
  - intros H. apply andb_prop in H as [E L].
    apply StrFacts.eqb_eq in E. apply Nat.leb_le in L.
    exists (firstn (length s - length suffix) s).
    rewrite <- E at 2. symmetry. apply firstn_skipn.
  - intros (pre & ->). rewrite length_app, Nat.add_sub.
    rewrite skipn_app, skipn_all, Nat.sub_diag. simpl.
    rewrite StrFacts.eqb_refl. simpl. apply Nat.leb_le. lia.
Qed.

Lemma is_t_spec tag :
  is_t tag = true <-> tag = "t" \/ exists pre, tag = pre ++ "}t".
Proof.
  unfold is_t. rewrite orb_true_iff, endswith_spec, StrFacts.eqb_eq.
  tauto.
Qed.

Lemma collect_text_fragments nodes : forall text,
  collect_text text nodes
  = text ++ concat (map (fun t => t ++ " ") (flat_map fragment nodes)).
Proof.
  induction nodes as [|[tag [t|]] nodes IH]; intros text;
    cbn [collect_text flat_map fragment].
  - rewrite app_nil_r. reflexivity.
  - rewrite IH. destruct (is_t tag); cbn [andb]; [|reflexivity].
    destruct (Str.truthy t); cbn [app map concat]; [|reflexivity].
    rewrite <- !app_assoc. reflexivity.
  - rewrite IH. destruct (is_t tag); reflexivity.
Qed.

Lemma concat_spaced fs :
  concat (map (fun t : str => t ++ " ") fs)
  = match fs with
    | [] => []
    | _ :: _ => Str.join " " fs ++ " "
    end.
Proof.
  induction fs as [|f fs IH]; [reflexivity|].
  cbn [map concat]. rewrite IH. destruct fs as [|g fs]; cbn [Str.join].
  - apply app_nil_r.
  - rewrite <- !app_assoc. reflexivity.
Qed.

(** Claim C8 fails as it is stated: the text of a document with the single
    run [Hi] is [Hi] followed by a space, not the fragments joined with a
    space. *)
Lemma fallback_join_counterexample :
  exists events text,
    extract_text_from_file (lib_fallback one_run) "cv.docx" = (events, Ok text)
    /\ text = "Hi "
    /\ joined_fragments one_run = "Hi"
    /\ text <> joined_fragments one_run.
Proof.
  do 2 eexists. split; [reflexivity|]. repeat split. discriminate.
Qed.

(** Claim C8, amended.  When the DOCX reader fails on a [.docx] path and
    the archive and the XML parser succeed, the text is made of the
    non-empty texts of the elements whose tag is [t] or ends with [}t], in
    document order, each one followed by one space: the fragments joined
    with a space, and one more space at the end when there is a
    fragment. *)
Theorem docx_fallback_text lib path e bytes tree :
  Str.eqb (extension path) ".docx" = true ->
  docx_paragraphs lib path = Raise e ->
  zip_read lib path "word/document.xml" = Ok bytes ->
  xml_fromstring lib bytes = Ok tree ->
  extract_text_from_file lib path = ([], Ok (spaced_fragments tree))
  /\ spaced_fragments tree
     = match fragments tree with
       | [] => []
       | _ :: _ => joined_fragments tree ++ " "
       end
  /\ fragments tree = flat_map fragment (iter tree)
  /\ (forall tag text,
        fragment (tag, text)
        = match text with
          | Some t => if is_t tag && Str.truthy t then [t] else []
          | None => []
          end)
  /\ (forall tag,
        is_t tag = true <-> tag = "t" \/ exists pre, tag = pre ++ "}t").
Proof.
  intros X D Z P. split; [|split; [|split; [|split]]].
  - unfold extract_text_from_file, docx_fallback. fold (extension path).
    assert (N : Str.eqb (extension path) ".pdf" = false).
    { apply StrFacts.eqb_eq in X. rewrite X. reflexivity. }
    rewrite N, X, D, Z. cbn [lift bind try_except ret]. rewrite P.
    cbn [lift bind try_except ret app]. rewrite collect_text_fragments.
    reflexivity.
  - apply concat_spaced.
  - reflexivity.
  - intros tag [t|]; reflexivity.
  - apply is_t_spec.
Qed.

(** The document with the single run [Hi]. *)
Lemma docx_fallback_text_witness :
  extract_text_from_file (lib_fallback one_run) "cv.docx"
  = ([], Ok ("Hi " : str)).
Proof.
  exact (proj1 (docx_fallback_text (lib_fallback one_run) "cv.docx"
                  (Exception "not a package") [] one_run
                  eq_refl eq_refl eq_refl eq_refl)).
Defined.

(** * The contacts *)

Lemma findall_lang r s :
  nullable r = false -> Forall (lang r) (findall r s).
Proof.
  intros N. unfold findall. apply Forall_map.
  pose proof (scan_hits _ _ _ (finditer_scan r s N)) as H.
  eapply Forall_impl; [|exact H].
  intros [w cap] (rest & M); simpl in *.
  destruct (match_at_sound _ _ _ _ M) as (w' & E & L).
  apply app_inv_tail in E; subst; auto.
Qed.

Lemma lang_EMAIL e : lang EMAIL_REGEX e -> email_shape e.
Proof.
  unfold EMAIL_REGEX, email_shape; intros L. inv_lang.
  repeat match goal with
  | H : Char.same _ ?c = true |- _ => apply Ascii.eqb_eq in H; subst c
  end.
  eexists _, _, _. split; [reflexivity|]. auto 10.
Qed.

Lemma email_char_no_at l :
  forallb email_char l = true ->
  forallb (fun c => negb (Char.same "@" c)) l = true.
Proof. apply CharFacts.forallb_subclass. vm_compute. reflexivity. Qed.

Lemma local_part_email l d :
  forallb email_char l = true -> local_part (l ++ "@" ++ d) = l.
Proof.
  intros H. unfold local_part.
  change (l ++ "@" ++ d) with (l ++ "@"%char :: d).
  rewrite (StrFacts.split_on_app (Char.same "@") l "@"%char d
             (email_char_no_at _ H) eq_refl).
  reflexivity.
Qed.

(** Claim C6 fails as it is stated: for the address [JDoe@example.com] the
    name is [Jdoe], where capitalizing the first letter of the token gives
    [JDoe]. *)
Lemma name_capitalize_counterexample :
  fst (fst (extract_contacts "JDoe@example.com")) = Str.points "Jdoe"
  /\ name_as_described "JDoe@example.com" = Str.points "JDoe"
  /\ fst (fst (extract_contacts "JDoe@example.com"))
     <> name_as_described "JDoe@example.com".
Proof. repeat split. discriminate. Qed.

(** Claim C6, amended.  Without an address the name is empty.  Otherwise it
    comes from the local part of the first address: the local part is
    split on [.] and [_], the empty tokens are dropped, each token has its
    first character put in title case and all its other characters
    lower-cased ([str.capitalize]), and the tokens are joined with single
    spaces; [jane.doe] gives [Jane Doe], and an accented local part keeps
    its accents: [jos\xe9.garc\xeda] gives [Jos\xe9 Garc\xeda]. *)
Theorem inferred_name text :
  fst (fst (extract_contacts text))
  = match findall EMAIL_REGEX text with
    | [] => []
    | first :: _ =>
        Str.join (Str.points " ")
          (map Str.capitalize
               (filter Str.truthy
                       (Str.split_on name_sep (local_part first))))
    end
  /\ match findall EMAIL_REGEX text with
     | [] => True
     | first :: _ =>
         exists l d, first = l ++ "@" ++ d
                     /\ forallb email_char l = true /\ local_part first = l
     end
  /\ (forall c s,
        Str.capitalize (c :: s) = Char.title c ++ Str.points (Str.lower s))
  /\ fst (fst (extract_contacts "Contact: jane.doe@example.com"))
     = Str.points "Jane Doe"
  /\ fst (fst (extract_contacts
                 ("jos" ++ ["233"%char] ++ ".garc" ++ ["237"%char]
                  ++ "a@example.com")))
     = Str.points ("Jos" ++ ["233"%char] ++ " Garc" ++ ["237"%char] ++ "a").
Proof.
  split; [|split; [|split; [|split]]].
  - unfold extract_contacts. destruct (findall EMAIL_REGEX text); reflexivity.
  - pose proof (findall_lang EMAIL_REGEX text eq_refl) as F.
    destruct (findall EMAIL_REGEX text) as [|first rest]; [exact I|].
    inversion F as [|? ? L _]; subst.
    destruct (lang_EMAIL _ L) as (l & d & t & -> & Hl & _).
    exists l, (d ++ "." ++ t). repeat split; auto.
    apply local_part_email; auto.
  - reflexivity.
  - vm_compute. reflexivity.
  - vm_compute. reflexivity.
Qed.

(** A run of characters of a class ends where the class ends. *)
Lemma run_unique q : forall u1 v1 u2 v2,
  forallb q u1 = true -> forallb q u2 = true ->
  stops q v1 -> stops q v2 ->
  u1 ++ v1 = u2 ++ v2 -> u1 = u2 /\ v1 = v2.
Proof.
  induction u1 as [|c u1 IH]; intros v1 u2 v2 Q1 Q2 S1 S2 E.
  - destruct u2 as [|c u2]; [auto|]. simpl in *. subst v1.
    simpl in S1. apply andb_prop in Q2 as [Qc _]. congruence.
  - destruct u2 as [|c2 u2]; simpl in *.
    + subst v2. simpl in S2. apply andb_prop in Q1 as [Qc _]. congruence.
    + injection E as <- E.
      apply andb_prop in Q1 as [_ Q1]. apply andb_prop in Q2 as [_ Q2].
      destruct (IH v1 u2 v2 Q1 Q2 S1 S2 E) as [-> ->]. auto.
Qed.

Lemma leftmost_ext (L L' : str -> Prop) s ws :
  (forall w, L w <-> L' w) -> leftmost L s ws -> leftmost L' s ws.
Proof.
  intros X. 
  assert (N : forall gap after, no_start L gap after -> no_start L' gap after).
  { intros gap after H g1 g2 E Hg (w & rest & E' & Lw).
    apply (H g1 g2 E Hg). exists w, rest. split; auto. apply X; auto. }
  induction 1 as [s H|gap w rest ws H Lw Hw _ IH].
  - apply leftmost_nil; auto.
  - apply leftmost_cons; auto. apply X; auto.
Qed.

Lemma email_shape_lang e : email_shape e <-> lang EMAIL_REGEX e.
Proof.
  split; [|apply lang_EMAIL].
  intros (l & d & t & -> & Hl & Nl & Hd & Nd & Ht & Nt).
  unfold EMAIL_REGEX.
  change ("@" ++ d ++ "." ++ t) with (["@"%char] ++ d ++ ["."%char] ++ t).
  repeat apply L_Seq; try (apply L_Rep; assumption);
    apply L_Chr; reflexivity.
Qed.

Lemma join_cons {A} (sep : list A) p ps :
  Str.join sep (p :: ps)
  = p ++ match ps with [] => [] | _ :: _ => sep ++ Str.join sep ps end.
Proof. destruct ps; simpl; [symmetry; apply app_nil_r|reflexivity]. Qed.

Lemma join_comma_inj : forall l1 l2,
  Forall comma_free l1 -> Forall comma_free l2 ->
  Str.join ", " l1 = Str.join ", " l2 -> l1 = l2.
Proof.
  induction l1 as [|w1 r1 IH]; intros l2 F1 F2 E.
  - destruct l2 as [|w2 r2]; [reflexivity|].
    inversion F2 as [|? ? [_ N] _]; subst.
    rewrite (join_cons (A:=ascii)) in E. destruct w2; [congruence|discriminate].
  - inversion F1 as [|? ? [Q1 N1] F1']; subst.
    destruct l2 as [|w2 r2].
    { rewrite (join_cons (A:=ascii)) in E.
      destruct w1; [congruence|discriminate]. }
    inversion F2 as [|? ? [Q2 N2] F2']; subst.
    rewrite !(join_cons (A:=ascii)) in E.
    apply (run_unique _ _ _ _ _ Q1 Q2) in E.
    + destruct E as [-> E]. f_equal.
      destruct r1 as [|a r1], r2 as [|b r2]; try reflexivity;
        try discriminate.
      apply IH; auto. injection E as E. exact E.
    + destruct r1; simpl; auto.
    + destruct r2; simpl; auto.
Qed.

Lemma email_comma_free e : email_shape e -> comma_free e.
Proof.
  intros H. pose proof H as (l & d & t & -> & Hl & Nl & _).
  apply email_shape_lang in H. split.
  - apply (lang_forallb _ EMAIL_REGEX); [vm_compute; reflexivity|exact H].
  - destruct l; simpl in *; [lia|discriminate].
Qed.

(** Claim C7 fails as it is stated: the emails come back as one string,
    not as a list of strings. *)
Lemma emails_value_counterexample :
  snd (fst (contacts_values "Contact: jane.doe@example.com"))
  = VStr (Str.points "jane.doe@example.com")
  /\ emails_as_described "Contact: jane.doe@example.com"
     = VList [VStr (Str.points "jane.doe@example.com")]
  /\ snd (fst (contacts_values "Contact: jane.doe@example.com"))
     <> emails_as_described "Contact: jane.doe@example.com".
Proof. repeat split. discriminate. Qed.

(** Claim C7, amended.  The emails come back as one string: the matches of
    the pattern joined with a comma and a space.  The matches are the
    occurrences of the shape [local-part@domain.tld] in the text, from left
    to right and without overlap, none skipped and duplicates kept; the
    string determines the list of the matches.  The word characters are
    those of [\w] for a [str] pattern, accented letters included:
    [jos\xe9.garc\xeda@example.com] is one address. *)
Theorem emails_in_order text :
  snd (fst (extract_contacts text)) = Str.join ", " (findall EMAIL_REGEX text)
  /\ leftmost email_shape text (findall EMAIL_REGEX text)
  /\ Forall email_shape (findall EMAIL_REGEX text)
  /\ findall EMAIL_REGEX "a@b.co, c@d.org; a@b.co"
     = words ["a@b.co"; "c@d.org"; "a@b.co"]
  /\ findall EMAIL_REGEX
       ("to jos" ++ ["233"%char] ++ ".garc" ++ ["237"%char]
        ++ "a@example.com.")
     = ["jos" ++ ["233"%char] ++ ".garc" ++ ["237"%char] ++ "a@example.com"]
  /\ (forall text',
        snd (fst (extract_contacts text)) = snd (fst (extract_contacts text'))
        <-> findall EMAIL_REGEX text = findall EMAIL_REGEX text').
Proof.
  assert (S : forall t, Forall email_shape (findall EMAIL_REGEX t)).
  { intros t. eapply Forall_impl; [|apply (findall_lang EMAIL_REGEX t eq_refl)].
    apply lang_EMAIL. }
  split; [reflexivity|].
  split; [|split; [apply S|split; [reflexivity|split; [reflexivity|]]]].
  - apply (leftmost_ext (lang EMAIL_REGEX)).
    + intros w; symmetry; apply email_shape_lang.
    + apply findall_leftmost. reflexivity.
  - intros text'. cbn [extract_contacts fst snd]. split.
    + apply join_comma_inj; eapply Forall_impl;
        try apply email_comma_free; apply S.
    + intros ->. reflexivity.
Qed.

(** * The experience *)

Lemma lang_Lit_nocase k : forall t,
  lang (Lit true k) t <-> Str.lower t = Str.lower k.
Proof.
  induction k as [|a k IH]; intros t; cbn [Lit]; split.
  - intros L. inv_lang. reflexivity.
  - destruct t; [constructor|discriminate].
  - intros L. apply lang_Seq_inv in L as (w1 & w2 & -> & L1 & L2).
    apply lang_Chr_inv in L1 as (c & -> & Hc).
    unfold Char.same_nocase in Hc. apply Ascii.eqb_eq in Hc.
    apply IH in L2. unfold Str.lower in *. cbn [app map].
    rewrite Hc, L2. reflexivity.
  - destruct t as [|c t]; [discriminate|]. unfold Str.lower; cbn [map].
    intros E. injection E as Ec Et.
    change (c :: t) with ([c] ++ t). apply L_Seq.
    + apply L_Chr. apply Ascii.eqb_eq. exact Ec.
    + apply IH. exact Et.
Qed.






Lemma numerals_not_nan l :
  Forall (lang NUMBER) l ->
  forallb (fun x => negb (Float.is_nan x)) (map Float.of_numeral l) = true.
Proof.
  induction 1 as [|g l Hg _ IH]; simpl; auto.
  destruct (numeral_ok _ Hg) as [_ ->]. exact IH.
Qed.



(** Two ways to cut the same text. *)
Lemma app_eq_cut {A} (a b c d : list A) :
  a ++ b = c ++ d -> length a <= length c ->
  exists m, c = a ++ m /\ b = m ++ d.
Proof.
  revert c. induction a as [|x a IH]; intros c E L.
  - exists c; auto.
  - destruct c as [|y c]; simpl in *; [lia|].
    injection E as -> E. destruct (IH c E) as (m & -> & ->); [lia|].
    exists m; auto.
Qed.

Lemma forallb_rev {A} (f : A -> bool) l : forallb f (rev l) = forallb f l.
Proof.
  induction l as [|x l IH]; simpl; auto.
  rewrite forallb_app, IH. simpl. rewrite andb_true_r. apply andb_comm.
Qed.

Lemma tail_chars u :
  lang TAIL u -> forallb (fun c => negb (num_char c)) u = true /\ u <> [].
Proof.
  intros L. split.
  - apply (lang_forallb _ TAIL); [vm_compute; reflexivity|exact L].
  - apply (lang_nonempty TAIL); [reflexivity|exact L].
Qed.

Lemma number_chars g : lang NUMBER g -> forallb num_char g = true.
Proof. apply lang_forallb. vm_compute. reflexivity. Qed.

Lemma stops_tail u b :
  lang TAIL u -> stops num_char (u ++ b).
Proof.
  intros L. destruct (tail_chars _ L) as [F N].
  destruct u as [|c u]; [congruence|]. simpl in *.
  apply andb_prop in F as [Fc _]. apply negb_true_iff in Fc. exact Fc.
Qed.

(** The numeral that covers [4.5] in a text where [4.5 years] occurs. *)
Lemma phrase_number text :
  contains "4.5 years" text ->
  exists D, In (D ++ "4.5") (findall_group EXPERIENCE_REGEX text)
            /\ forallb Char.is_digit D = true.
Proof.
  intros (pre & post & ->).
  assert (St : starts_with (lang EXPERIENCE_REGEX) ("4.5 years" ++ post)).
  { destruct (match_at_sound EXPERIENCE_REGEX "4.5 years" []
                (Some ("4.5" : str)) eq_refl) as (w & E & L).
    rewrite app_nil_r in E. subst w. exists ("4.5 years" : str), post. auto. }
  destruct (scan_covers _ _ _ (finditer_scan EXPERIENCE_REGEX _ eq_refl)
              pre ("4.5 years" ++ post) eq_refl ltac:(discriminate) St)
    as (a & w & cap & b & E & I & M & B).
  destruct (match_at_group NUMBER TAIL _ _ _ eq_refl M)
    as (g & u & Ew & Lg & Lu & ->).
  rewrite app_assoc in Ew. apply app_inv_tail in Ew. subst w.
  destruct (app_eq_cut _ _ _ _ (eq_sym E) (proj1 B)) as (x & -> & E2).
  rewrite length_app in B.
  rewrite <- app_assoc in E2.
  change ("4.5 years" ++ post) with ("4.5" ++ " years" ++ post) in E2.
  (* the numeral reaches the place of [4.5] *)
  assert (C : exists m, g = x ++ m /\ "4.5" ++ " years" ++ post = m ++ u ++ b).
  { destruct (Nat.le_gt_cases (length x) (length g)) as [Le|Gt].
    - exact (app_eq_cut _ _ _ _ (eq_sym E2) Le).
    - exfalso.
      destruct (app_eq_cut _ _ _ _ E2 (Nat.lt_le_incl _ _ Gt))
        as (m & -> & E3).
      rewrite !length_app in B.
      destruct (app_eq_cut _ _ _ _ (eq_sym E3)) as (m' & -> & E4); [lia|].
      destruct (tail_chars _ Lu) as [F _].
      rewrite forallb_app in F. apply andb_prop in F as [_ F].
      rewrite !length_app in B.
      destruct m' as [|c m']; [simpl in B; lia|].
      simpl in E4. injection E4 as <- _. discriminate. }
  destruct C as (m & -> & E3).
  pose proof (number_chars _ Lg) as Fg.
  rewrite forallb_app in Fg. apply andb_prop in Fg as [_ Fm].
  destruct (run_unique num_char "4.5" (" years" ++ post) m (u ++ b))
    as [<- _]; auto.
  { reflexivity. }
  { apply stops_tail; auto. }
  exists x. split.
  - apply (in_map (fun h : hit =>
                     match snd h with Some g => g | None => [] end)) in I.
    exact I.
  - (* what precedes [4.5] in the numeral is made of digits *)
    apply lang_NUMBER in Lg. destruct Lg as [H|(ip & fp & Eg & Hi & Hf)].
    + apply all_digits_elim in H as [H _].
      rewrite forallb_app in H. apply andb_prop in H as [_ H]. discriminate.
    + apply all_digits_elim in Hi as [Hi _].
      apply all_digits_elim in Hf as [Hf _].
      apply (f_equal (@rev ascii)) in Eg.
      rewrite !rev_app_distr in Eg. simpl in Eg. rewrite <- !app_assoc in Eg.
      simpl in Eg.
      destruct (run_unique Char.is_digit ["5"%char]
                  ("."%char :: "4"%char :: rev x) (rev fp)
                  ("."%char :: rev ip)) as [_ E5]; auto.
      { rewrite forallb_rev. exact Hf. }
      { reflexivity. }
      { reflexivity. }
      injection E5 as E5.
      apply (f_equal (@rev ascii)) in E5. rewrite rev_involutive in E5.
      simpl in E5. rewrite rev_involutive in E5. subst ip.
      rewrite forallb_app in Hi. apply andb_prop in Hi as [Hi _]. exact Hi.
Qed.

Lemma digits_val_app a : forall acc b,
  Float.digits_val acc (a ++ b) = Float.digits_val (Float.digits_val acc a) b.
Proof. induction a as [|c a IH]; intros acc b; simpl; auto. Qed.

Lemma digits_val_nonneg D : forall acc,
  (0 <= acc)%Z -> forallb Char.is_digit D = true ->
  (0 <= Float.digits_val acc D)%Z.
Proof.
  induction D as [|c D IH]; intros acc Ha H;
    cbn [forallb Float.digits_val] in *; auto.
  apply andb_prop in H as [Hc H]. apply IH; auto.
  unfold Char.is_digit, Char.between in Hc.
  apply andb_prop in Hc as [Hc _]. apply Nat.leb_le in Hc.
  unfold Float.digit_val. lia.
Qed.

Lemma numeral_at_least_4_5 D :
  forallb Char.is_digit D = true ->
  Float.leb (Float.Fin (9 # 2)) (Float.of_numeral (D ++ "4.5")) = true.
Proof.
  intros H. unfold Float.of_numeral.
  change (D ++ "4.5") with (D ++ "4" ++ "." ++ "5"). rewrite app_assoc.
  rewrite of_str_point.
  2: { apply all_digits_intro.
       - rewrite forallb_app, H. reflexivity.
       - rewrite length_app. simpl. lia. }
  2: reflexivity.
  apply FloatFacts.of_Q_above.
  - vm_compute. reflexivity.
  - pose proof FloatFacts.pow2_1024_big. lra.
  - rewrite <- app_assoc, digits_val_app.
    pose proof (digits_val_nonneg D 0 (Z.le_refl 0) H) as V.
    set (v := Float.digits_val 0 D) in *.
    change (Float.digits_val v ("4" ++ "5")) with (10 * (10 * v + 4) + 5)%Z.
    apply Qle_shift_div_l; [reflexivity|].
    change (inject_Z (10 ^ Z.of_nat (length ("5" : str)))) with (inject_Z 10).
    assert (E : (9 # 2) * inject_Z 10 == inject_Z 45) by reflexivity.
    rewrite E, <- Zle_Qle. lia.
Qed.

Lemma experience_at_least text g :
  In g (findall_group EXPERIENCE_REGEX text) ->
  Float.leb (Float.of_numeral g) (experience_years text) = true.
Proof.
  intros I. unfold experience_years.
  pose proof (numerals_not_nan _ (experience_captures text)) as N.
  apply (in_map Float.of_numeral) in I.
  destruct (map Float.of_numeral (findall_group EXPERIENCE_REGEX text))
    as [|x xs]; [destruct I|].
  destruct (FloatFacts.max_from_spec xs x N) as [_ F].
  rewrite Forall_forall in F. apply F. exact I.
Qed.

(** Claim C3.  Without a minimum the experience is satisfied.  With a
    minimum, the threshold is the minimum minus one when the relaxation is
    set and the minimum is positive, and the minimum otherwise, and the
    experience is satisfied when it is at least the threshold.  With the
    minimum 5.0, a document whose measured experience is 4.5, as for the
    text [4.5 years of experience], is satisfied under the relaxation and
    not satisfied without it; any text that contains the phrase is
    satisfied under the relaxation. *)
Theorem experience_satisfied filename text keywords exp_req relax
    domains tools skillsets :
  exists r,
    score filename text keywords exp_req relax domains tools skillsets
    = ([], Ok r)
    /\ Experience_Match r
       = match exp_req with
         | None => true
         | Some minimum =>
             Float.geb (Experience_Years r)
               (if relax && Float.gtb minimum Float.zero
                then Float.sub minimum Float.one
                else minimum)
         end
    /\ (contains "4.5 years of experience" text ->
        exp_req = Some (Float.Fin 5) ->
        (relax = true -> Experience_Match r = true)
        /\ (relax = false ->
            Experience_Match r = Float.geb (Experience_Years r) (Float.Fin 5)))
    /\ (text = "4.5 years of experience" ->
        exp_req = Some (Float.Fin 5) ->
        Experience_Years r = Float.Fin (9 # 2) /\ Experience_Match r = relax)
    /\ (Experience_Years r = Float.Fin (9 # 2) ->
        exp_req = Some (Float.Fin 5) -> Experience_Match r = relax).
Proof.
  rewrite score_row. eexists; split; [reflexivity|].
  cbn [Experience_Match Experience_Years row]. unfold experience_ok, threshold.
  split; [reflexivity|]. split; [|split].
  3:{ intros -> ->. destruct relax; vm_compute; reflexivity. }
  - intros (pre & post & ->) ->. split; intros ->; [|reflexivity].
    destruct (phrase_number (pre ++ "4.5 years of experience" ++ post))
      as (D & I & HD).
    { exists pre, (" of experience" ++ post). reflexivity. }
    apply experience_at_least in I.
    change (Float.geb ?a ?b) with (Float.leb b a).
    apply FloatFacts.leb_trans with (Float.of_numeral (D ++ "4.5")); auto.
    apply FloatFacts.leb_trans with (Float.Fin (9 # 2)).
    + vm_compute. reflexivity.
    + apply numeral_at_least_4_5; auto.
  - intros -> ->. split; [vm_compute; reflexivity|].
    destruct relax; vm_compute; reflexivity.
Qed.

(** The text [4.5 years of experience] under the relaxation. *)
Lemma experience_satisfied_witness :
  exists r,
    score "cv.pdf" "4.5 years of experience" [] (Some (Float.Fin 5)) true
          [] [] [] = ([], Ok r)
    /\ Experience_Match r = true.
Proof.
  destruct (experience_satisfied "cv.pdf" "4.5 years of experience" []
              (Some (Float.Fin 5)) true [] [] [])
    as (r & E & _ & P & _).
  exists r. split; [exact E|].
  apply P; auto.
  exists [], []. reflexivity.
Defined.

(** * Further properties of the program *)

Module FloatOrder.

Import Float FloatFacts.
Local Open Scope Q_scope.

(** Rounding does not depend on the fraction that stands for a number. *)
Lemma rnd_proper x y : x == y -> rnd x == rnd y.
Proof.
  intros E. apply Qle_antisym; apply rnd_mono; rewrite E; apply Qle_refl.
Qed.

Lemma of_Q_proper x y : x == y -> of_Q x = of_Q y.
Proof.
  intros E. unfold of_Q. pose proof (rnd_proper x y E) as R.
  assert (B1 : Qle_bool (pow2 1024) (rnd x) = Qle_bool (pow2 1024) (rnd y)).
  { apply eq_true_iff_eq. rewrite !Qle_bool_iff, R. reflexivity. }
  assert (B2 : Qle_bool (rnd x) (- pow2 1024)
               = Qle_bool (rnd y) (- pow2 1024)).
  { apply eq_true_iff_eq. rewrite !Qle_bool_iff, R. reflexivity. }
  rewrite B1, B2, (Qred_complete _ _ R). reflexivity.
Qed.

(** Rounding keeps the order. *)
Lemma of_Q_mono x y : x <= y -> leb (of_Q x) (of_Q y) = true.
Proof.
  intros H. apply rnd_mono in H. unfold of_Q.
  pose proof pow2_1024_big as Big.
  destruct (Qle_bool (pow2 1024) (rnd x)) eqn:X1.
  { apply Qle_bool_iff in X1.
    assert (Y1 : Qle_bool (pow2 1024) (rnd y) = true)
      by (apply Qle_bool_iff; lra).
    rewrite Y1. reflexivity. }
  destruct (Qle_bool (rnd x) (- pow2 1024)) eqn:X2.
  { destruct (Qle_bool (pow2 1024) (rnd y)); [reflexivity|].
    destruct (Qle_bool (rnd y) (- pow2 1024)); reflexivity. }
  destruct (Qle_bool (pow2 1024) (rnd y)) eqn:Y1; [reflexivity|].
  destruct (Qle_bool (rnd y) (- pow2 1024)) eqn:Y2.
  { apply Qle_bool_iff in Y2.
    assert (Qle_bool (rnd x) (- pow2 1024) = true)
      by (apply Qle_bool_iff; lra).
    congruence. }
  cbn [leb]. apply Qle_bool_iff. rewrite !Qred_correct. exact H.
Qed.

Lemma of_Q_nonneg x : 0 <= x -> leb zero (of_Q x) = true.
Proof. intros H. apply (of_Q_above 0 x representable_0); auto.
  pose proof pow2_1024_big. lra. Qed.

Lemma leb_Fin x y : leb (Fin x) (Fin y) = true <-> x <= y.
Proof. cbn [leb]. apply Qle_bool_iff. Qed.

(** [round(., 2)] keeps the order of finite floats. *)
Lemma round2_mono x y :
  x <= y -> leb (round2 (Fin x)) (round2 (Fin y)) = true.
Proof.
  intros H. cbn [round2]. apply of_Q_mono.
  apply Qmult_le_compat_r; [|discriminate].
  rewrite <- Zle_Qle. apply rne_mono. lra.
Qed.

Lemma mul_100_mono x y :
  x <= y -> leb (mul (Fin x) (Fin 100)) (mul (Fin y) (Fin 100)) = true.
Proof. intros H. cbn [mul]. apply of_Q_mono. lra. Qed.

End FloatOrder.

(** [re.search] succeeds exactly when a word of the pattern occurs. *)
Lemma search_spec r s :
  search r s = true <->
  exists pre suf, s = pre ++ suf /\ starts_with (lang r) suf.
Proof.
  split.
  - induction s as [|c s IH]; cbn [search].
    + destruct (match_at r []) as [[rest cap]|] eqn:M; [|discriminate].
      intros _. destruct (match_at_sound _ _ _ _ M) as (w & E & L).
      exists [], []. split; [reflexivity|]. exists w, rest. auto.
    + destruct (match_at r (c :: s)) as [[rest cap]|] eqn:M.
      * intros _. destruct (match_at_sound _ _ _ _ M) as (w & E & L).
        exists [], (c :: s). split; [reflexivity|]. exists w, rest. auto.
      * intros H. destruct (IH H) as (pre & suf & -> & St).
        exists (c :: pre), suf. auto.
  - intros (pre & suf & -> & St).
    induction pre as [|c pre IH]; cbn [app].
    + destruct suf as [|c suf]; cbn [search];
        destruct (match_at r _) eqn:M; auto;
        apply match_at_complete in M; contradiction.
    + cbn [search]. destruct (match_at r _); auto.
Qed.

Lemma lower_app a b : Str.lower (a ++ b) = Str.lower a ++ Str.lower b.
Proof. apply map_app. Qed.

Lemma char_lower_lower c : Char.lower (Char.lower c) = Char.lower c.
Proof.
  assert (H : Char.for_all
                (fun c => Ascii.eqb (Char.lower (Char.lower c)) (Char.lower c))
              = true) by (vm_compute; reflexivity).
  apply Ascii.eqb_eq. exact (CharFacts.for_all_spec _ H c).
Qed.

Lemma lower_lower s : Str.lower (Str.lower s) = Str.lower s.
Proof.
  unfold Str.lower. rewrite map_map. apply map_ext. apply char_lower_lower.
Qed.

Lemma search_occurs term text :
  search (escaped term) text = true <-> occurs term text.
Proof.
  rewrite search_spec. unfold occurs, starts_with, escaped. split.
  - intros (pre & suf & -> & w & post & -> & L).
    apply lang_Lit_nocase in L. exists pre, w, post. auto.
  - intros (pre & w & post & -> & E).
    exists pre, (w ++ post). split; [reflexivity|].
    exists w, post. split; [reflexivity|]. apply lang_Lit_nocase. exact E.
Qed.

Lemma occurs_case term term' text text' :
  Str.lower term = Str.lower term' -> Str.lower text = Str.lower text' ->
  occurs term text -> occurs term' text'.
Proof.
  intros Et Ex (pre & w & post & -> & E).
  rewrite !lower_app in Ex. symmetry in Ex. unfold Str.lower in Ex.
  apply map_eq_app in Ex as (pre' & rest' & -> & _ & Er).
  apply map_eq_app in Er as (w' & post' & -> & Ew & _).
  exists pre', w', post'. split; [reflexivity|].
  unfold Str.lower in *. congruence.
Qed.

Lemma search_case term term' text text' :
  Str.lower term = Str.lower term' -> Str.lower text = Str.lower text' ->
  search (escaped term) text = search (escaped term') text'.
Proof.
  intros Et Ex. apply eq_true_iff_eq. rewrite !search_occurs.
  split; apply occurs_case; auto.
Qed.


(** Property X2.  Matching ignores case on both sides, the case being
    that of [str.lower], accented letters included.  Two texts that are
    equal once lower-cased match the same terms, a text matches what its
    lower-cased form matches, and lower-casing the terms lower-cases the
    matched ones and changes nothing else. *)
Theorem matching_ignores_case terms text text' :
  Str.lower text = Str.lower text' ->
  matched terms text = matched terms text'
  /\ matched terms (Str.lower text) = matched terms text
  /\ map Str.lower (matched terms text)
     = matched (map Str.lower terms) text.
Proof.
  intros E. split; [|split].
  - unfold matched. apply filter_ext. intros t. apply search_case; auto.
  - unfold matched. apply filter_ext. intros t. apply search_case; auto.
    apply lower_lower.
  - unfold matched. induction terms as [|t ts IH]; cbn [filter map]; auto.
    rewrite <- (search_case t (Str.lower t) text text) by
      (auto using lower_lower).
    destruct (search (escaped t) text); cbn [map]; rewrite IH; reflexivity.
Qed.

Lemma matching_ignores_case_witness :
  matched [["233"%char] ++ "cole"; "TCL" : str]
          (["201"%char] ++ "COLE and tcl")
  = matched [["233"%char] ++ "cole"; "TCL" : str]
            (["233"%char] ++ "cole AND Tcl").
Proof.
  exact (proj1 (matching_ignores_case
                  [["233"%char] ++ "cole"; "TCL" : str]
                  (["201"%char] ++ "COLE and tcl")
                  (["233"%char] ++ "cole AND Tcl") eq_refl)).
Defined.

Lemma filter_sublist_impl {A} (f g : A -> bool) l :
  (forall x, f x = true -> g x = true) ->
  sublist (filter f l) (filter g l).
Proof.
  intros H. induction l as [|x l IH]; cbn [filter]; [constructor|].
  destruct (f x) eqn:F.
  - rewrite (H x F). apply sublist_keep, IH.
  - destruct (g x); [apply sublist_skip|]; exact IH.
Qed.

Lemma matched_grows terms text a b :
  sublist (matched terms text) (matched terms (a ++ text ++ b)).
Proof.
  apply filter_sublist_impl. intros t. rewrite !search_occurs.
  intros (pre & w & post & -> & E).
  exists (a ++ pre), w, (post ++ b). split; [|exact E].
  rewrite <- !app_assoc. reflexivity.
Qed.

Module PercentOrder.

Import Float FloatFacts FloatOrder.
Local Open Scope Q_scope.

Lemma ratio_Fin m n :
  (m <= n)%nat -> (0 < n)%nat ->
  exists a, of_Q (inject_Z (Z.of_nat m) / inject_Z (Z.of_nat n)) = Fin a
            /\ 0 <= a <= 1.
Proof.
  intros Hmn Hn. pose proof pow2_1024_big as Big.
  apply (of_Q_between 0 1 _ representable_0 representable_1); try lra.
  apply PercentFacts.ratio_bounds; auto.
Qed.

Lemma times_100_Fin a :
  0 <= a <= 1 -> exists b, mul (Fin a) (Fin 100) = Fin b /\ 0 <= b <= 100.
Proof.
  intros Ha. pose proof pow2_1024_big as Big. cbn [mul].
  apply (of_Q_between 0 100 _ representable_0 representable_100); lra.
Qed.

(** More matched keywords, a percentage at least as high. *)
Lemma percentage_mono m m' n :
  (m <= m')%nat -> (m' <= n)%nat -> (0 < n)%nat ->
  leb (percentage m n) (percentage m' n) = true.
Proof.
  intros H1 H2 Hn. unfold percentage. rewrite PercentFacts.of_nat_100.
  assert (Q : inject_Z (Z.of_nat m) / inject_Z (Z.of_nat n)
              <= inject_Z (Z.of_nat m') / inject_Z (Z.of_nat n)).
  { apply Qmult_le_compat_r.
    - rewrite <- Zle_Qle. lia.
    - apply Qlt_le_weak, Qinv_lt_0_compat.
      change 0 with (inject_Z 0). rewrite <- Zlt_Qlt. lia. }
  apply of_Q_mono in Q.
  destruct (ratio_Fin m n) as (a & Ea & Ha); [lia|lia|].
  destruct (ratio_Fin m' n) as (a' & Ea' & Ha'); [lia|lia|].
  rewrite Ea, Ea' in *. apply leb_Fin in Q.
  pose proof (mul_100_mono a a' Q) as M.
  destruct (times_100_Fin a Ha) as (b & Eb & Hb).
  destruct (times_100_Fin a' Ha') as (b' & Eb' & Hb').
  rewrite Eb, Eb' in *. apply leb_Fin in M.
  apply round2_mono. exact M.
Qed.

Lemma percentage_all n : (0 < n)%nat -> percentage n n = Fin 100.
Proof.
  intros Hn. unfold percentage.
  rewrite (of_Q_proper _ 1).
  - vm_compute. reflexivity.
  - apply Qmult_inv_r. intros E.
    assert (H : 0 < inject_Z (Z.of_nat n)).
    { change 0 with (inject_Z 0). rewrite <- Zlt_Qlt. lia. }
    lra.
Qed.

Lemma percentage_none n : percentage 0 n = Fin 0.
Proof.
  unfold percentage. rewrite PercentFacts.of_Q_zero; [reflexivity|].
  cbn [Z.of_nat]. apply Qmult_0_l.
Qed.

End PercentOrder.

(** Property X3.  With at least one keyword, the percentage of a document
    is exactly 100.0 when every keyword is matched and exactly 0.0 when
    none is: the rounding to two decimals does not disturb the two ends
    of the scale. *)
Theorem percentage_extremes filename text keywords exp_req relax
    domains tools skillsets :
  keywords <> [] ->
  exists r,
    score filename text keywords exp_req relax domains tools skillsets
    = ([], Ok r)
    /\ (matched keywords text = keywords ->
        Match_Percentage r = Float.Fin 100)
    /\ (matched keywords text = [] -> Match_Percentage r = Float.Fin 0).
Proof.
  intros N. rewrite score_row. eexists; split; [reflexivity|].
  cbn [Match_Percentage row]. unfold match_percentage.
  destruct keywords as [|k ks]; [congruence|]. split; intros ->.
  - apply PercentOrder.percentage_all. simpl; lia.
  - apply PercentOrder.percentage_none.
Qed.

Lemma percentage_extremes_witness :
  exists r,
    score "cv.pdf" "Verilog and TCL" (words ["Verilog"; "TCL"]) None false
          [] [] [] = ([], Ok r)
    /\ Match_Percentage r = Float.Fin 100.
Proof.
  destruct (percentage_extremes "cv.pdf" "Verilog and TCL"
              (words ["Verilog"; "TCL"]) None false [] [] [])
    as (r & E & A & _); [discriminate|].
  exists r. split; [exact E|]. apply A. reflexivity.
Defined.

(** Property X4.  Text added before or after the text of a document never
    removes a match: the matched keywords, domains, tools and skills of
    the shorter text are kept, in their order, among those of the longer
    one, and the percentage does not go down. *)
Theorem more_text_never_lowers_match filename text before after keywords
    exp_req relax domains tools skillsets :
  exists r r',
    score filename text keywords exp_req relax domains tools skillsets
    = ([], Ok r)
    /\ score filename (before ++ text ++ after) keywords exp_req relax
             domains tools skillsets = ([], Ok r')
    /\ sublist (matched keywords text)
               (matched keywords (before ++ text ++ after))
    /\ sublist (matched domains text)
               (matched domains (before ++ text ++ after))
    /\ sublist (matched tools text)
               (matched tools (before ++ text ++ after))
    /\ sublist (matched skillsets text)
               (matched skillsets (before ++ text ++ after))
    /\ Float.leb (Match_Percentage r) (Match_Percentage r') = true.
Proof.
  rewrite !score_row. do 2 eexists.
  split; [reflexivity|]. split; [reflexivity|].
  repeat (split; [apply matched_grows|]).
  cbn [Match_Percentage row]. unfold match_percentage.
  destruct keywords as [|k ks]; [reflexivity|].
  apply PercentOrder.percentage_mono.
  - apply sublist_length, matched_grows.
  - apply sublist_length, filter_sublist.
  - simpl; lia.
Qed.

Lemma numeral_nonneg g :
  lang NUMBER g -> Float.leb Float.zero (Float.of_numeral g) = true.
Proof.
  intros L. unfold Float.of_numeral.
  destruct (lang_NUMBER _ L) as [H|(ip & fp & -> & Hi & Hf)].
  - rewrite (of_str_digits _ H). apply FloatOrder.of_Q_nonneg.
    destruct (all_digits_elim _ H) as [D _].
    change 0%Q with (inject_Z 0). rewrite <- Zle_Qle.
    apply digits_val_nonneg; [lia|exact D].
  - rewrite (of_str_point _ _ Hi Hf). apply FloatOrder.of_Q_nonneg.
    destruct (all_digits_elim _ Hi) as [Di _].
    destruct (all_digits_elim _ Hf) as [Df _].
    apply Qle_shift_div_l.
    + change 0%Q with (inject_Z 0). rewrite <- Zlt_Qlt.
      apply Z.pow_pos_nonneg; lia.
    + rewrite Qmult_0_l. change 0%Q with (inject_Z 0). rewrite <- Zle_Qle.
      apply digits_val_nonneg; [lia|]. rewrite forallb_app, Di, Df.
      reflexivity.
Qed.

Lemma experience_years_nonneg text :
  Float.leb Float.zero (experience_years text) = true.
Proof.
  unfold experience_years.
  pose proof (experience_captures text) as C.
  pose proof (numerals_not_nan _ C) as N.
  destruct (findall_group EXPERIENCE_REGEX text) as [|g gs]; [reflexivity|].
  cbn [map] in *.
  destruct (FloatFacts.max_from_spec _ _ N) as [_ F].
  inversion F as [|? ? Fx _]; subst.
  inversion C as [|? ? Lg _]; subst.
  exact (FloatFacts.leb_trans _ _ _ (numeral_nonneg _ Lg) Fx).
Qed.

(** Property X5.  The experience found in a text is never negative, so a
    minimum of zero or less is met by every document, relaxed or not, even
    by one that mentions no experience. *)
Theorem nonpositive_minimum_always_met filename text keywords minimum relax
    domains tools skillsets :
  (minimum <= 0)%Q ->
  exists r,
    score filename text keywords (Some (Float.Fin minimum)) relax
          domains tools skillsets = ([], Ok r)
    /\ Float.leb Float.zero (Experience_Years r) = true
    /\ Experience_Match r = true.
Proof.
  intros H. rewrite score_row. eexists; split; [reflexivity|].
  cbn [Experience_Years Experience_Match row]. split.
  - apply experience_years_nonneg.
  - unfold experience_ok, threshold.
    assert (G : Float.gtb (Float.Fin minimum) Float.zero = false).
    { cbn. apply negb_false_iff, Qle_bool_iff. exact H. }
    rewrite G, andb_false_r. unfold Float.geb.
    apply FloatFacts.leb_trans with Float.zero.
    + apply Qle_bool_iff. exact H.
    + apply experience_years_nonneg.
Qed.

Lemma nonpositive_minimum_always_met_witness :
  exists r,
    score "cv.pdf" "no figure here" [] (Some (Float.Fin 0)) true [] [] []
    = ([], Ok r)
    /\ Experience_Match r = true.
Proof.
  destruct (nonpositive_minimum_always_met "cv.pdf" "no figure here" []
              0%Q true [] [] []) as (r & E & _ & M).
  - discriminate.
  - exists r. auto.
Defined.

(** Property X6.  Relaxing the requirement never turns a document down:
    for a minimum that is a float, a document that meets the strict
    requirement meets the relaxed one, and the experience reported is the
    same in both runs. *)
Theorem relaxing_never_hurts filename text keywords minimum
    domains tools skillsets :
  Float.of_Q minimum = Float.Fin minimum ->
  exists strict relaxed,
    score filename text keywords (Some (Float.Fin minimum)) false
          domains tools skillsets = ([], Ok strict)
    /\ score filename text keywords (Some (Float.Fin minimum)) true
             domains tools skillsets = ([], Ok relaxed)
    /\ (Experience_Match strict = true -> Experience_Match relaxed = true)
    /\ Experience_Years strict = Experience_Years relaxed.
Proof.
  intros R. rewrite !score_row. do 2 eexists.
  split; [reflexivity|]. split; [reflexivity|]. split; [|reflexivity].
  cbn [Experience_Match row]. unfold experience_ok, threshold. cbn [andb].
  destruct (Float.gtb (Float.Fin minimum) Float.zero); [|auto].
  unfold Float.geb. intros H.
  refine (FloatFacts.leb_trans _ _ _ _ H).
  cbn [Float.sub Float.one]. rewrite <- R.
  apply FloatOrder.of_Q_mono. lra.
Qed.

Lemma relaxing_never_hurts_witness :
  exists strict relaxed,
    score "cv.pdf" "6 years" [] (Some (Float.Fin 5)) false [] [] []
    = ([], Ok strict)
    /\ score "cv.pdf" "6 years" [] (Some (Float.Fin 5)) true [] [] []
       = ([], Ok relaxed)
    /\ (Experience_Match strict = true -> Experience_Match relaxed = true).
Proof.
  destruct (relaxing_never_hurts "cv.pdf" "6 years" [] 5%Q [] [] [])
    as (s & r & E1 & E2 & H & _).
  - vm_compute. reflexivity.
  - exists s, r. auto.
Defined.

Lemma phone_shape_lang p : phone_shape p <-> lang PHONE_REGEX p.
Proof.
  unfold phone_shape, PHONE_REGEX, Opt. split.
  - intros (plus & a & m & z & -> & P & Ha & Hm & Nm & Hz).
    apply L_Seq; [|apply L_Seq; [|apply L_Seq]].
    + destruct P as [->| ->].
      * apply L_AltR. constructor.
      * apply L_AltL. apply L_Chr. reflexivity.
    + apply L_Chr; assumption.
    + apply L_Rep; assumption.
    + apply L_Chr; assumption.
  - intros L.
    apply lang_Seq_inv in L as (plus & r1 & -> & Lp & L).
    apply lang_Seq_inv in L as (a & r2 & -> & La & L).
    apply lang_Seq_inv in L as (m & z & -> & Lm & Lz).
    apply lang_Chr_inv in La as (ca & -> & Ha).
    apply lang_Chr_inv in Lz as (cz & -> & Hz).
    apply lang_Rep_inv in Lm as [Hm Nm].
    exists plus, ca, m, cz. split; [reflexivity|].
    split; [|auto].
    apply lang_Alt_inv in Lp as [Lp|Lp].
    + apply lang_Chr_inv in Lp as (c & -> & Hc).
      apply Ascii.eqb_eq in Hc. subst c. right. reflexivity.
    + apply lang_Eps_inv in Lp. left. exact Lp.
Qed.

Lemma phone_comma_free p : phone_shape p -> comma_free p.
Proof.
  intros H. pose proof H as (plus & a & m & z & -> & _).
  apply phone_shape_lang in H. split.
  - apply (lang_forallb _ PHONE_REGEX); [vm_compute; reflexivity|exact H].
  - destruct plus; discriminate.
Qed.

Lemma phone_length p : phone_shape p -> 9 <= length p.
Proof.
  intros (plus & a & m & z & -> & _ & _ & _ & N & _).
  rewrite !length_app. simpl. lia.
Qed.

(** Property X7.  The phone field is the [", "]-join of the matches of
    [PHONE_REGEX], scanned from left to right without overlap.  Every
    match has the shape of a phone number (an optional [+], a digit, seven
    or more digits, spaces or hyphens, a digit), hence nine characters or
    more, and as none holds a comma the field determines the list of
    phones. *)
Theorem phones_in_order text :
  snd (extract_contacts text) = Str.join ", " (findall PHONE_REGEX text)
  /\ leftmost phone_shape text (findall PHONE_REGEX text)
  /\ Forall (fun p => phone_shape p /\ 9 <= length p)
            (findall PHONE_REGEX text)
  /\ (forall text',
        snd (extract_contacts text) = snd (extract_contacts text')
        <-> findall PHONE_REGEX text = findall PHONE_REGEX text').
Proof.
  assert (S : forall t, Forall phone_shape (findall PHONE_REGEX t)).
  { intros t. eapply Forall_impl; [|apply (findall_lang PHONE_REGEX t eq_refl)].
    intros p. apply phone_shape_lang. }
  split; [reflexivity|]. split; [|split].
  - apply (leftmost_ext (lang PHONE_REGEX)).
    + intros w; symmetry; apply phone_shape_lang.
    + apply findall_leftmost. reflexivity.
  - eapply Forall_impl; [|apply S]. intros p H. split; auto.
    apply phone_length; auto.
  - intros text'. cbn [extract_contacts fst snd]. split.
    + apply join_comma_inj; eapply Forall_impl;
        try apply phone_comma_free; apply S.
    + intros ->. reflexivity.
Qed.

Module SplitFacts.

Import Str.

Lemma split_on_pieces {A} (p q : A -> bool) s :
  forallb q s = true ->
  Forall (fun w => forallb (fun c => q c && negb (p c)) w = true)
         (split_on p s).
Proof.
  induction s as [|c s IH]; cbn [split_on forallb]; intros H.
  - repeat constructor.
  - apply andb_prop in H as [Hc H]. specialize (IH H).
    destruct (p c) eqn:P.
    + constructor; auto.
    + destruct (split_on p s) as [|w ws].
      * constructor; auto. cbn. rewrite Hc, P. reflexivity.
      * inversion IH; subst. constructor; auto.
        cbn [forallb]. rewrite Hc, P. auto.
Qed.


(** Splitting what was joined gives the pieces back. *)
Lemma split_on_join {A} (p : A -> bool) c l :
  p c = true -> l <> [] ->
  Forall (fun w => forallb (fun x => negb (p x)) w = true) l ->
  split_on p (join [c] l) = l.
Proof.
  intros Pc N F. induction F as [|w l Hw F IH]; [congruence|].
  destruct l as [|w' l].
  - cbn [join]. apply StrFacts.split_on_none. exact Hw.
  - change (join [c] (w :: w' :: l)) with (w ++ c :: join [c] (w' :: l)).
    rewrite (StrFacts.split_on_app p w c _ Hw Pc), IH; [reflexivity|].
    discriminate.
Qed.



End SplitFacts.









(** The extractor logs one warning when the extraction fails and nothing
    otherwise. *)
Lemma warnings_of_cases lib path :
  (extraction_fails lib path = false /\ warnings_of lib path = [])
  \/ (extraction_fails lib path = true
      /\ exists e, warnings_of lib path = [LogWarning (Path.basename path) e]).
Proof.
  unfold warnings_of, extraction_fails, extract_text_from_file, extension,
    docx_fallback.
  destruct (Str.eqb _ ".pdf").
  { destruct (pdf_extract lib path);
      [left; split; reflexivity
      |right; split; [reflexivity|eexists; reflexivity]]. }
  destruct (Str.eqb _ ".docx"); [|left; split; reflexivity].
  destruct (docx_paragraphs lib path); [left; split; reflexivity|].
  destruct (zip_read lib path _) as [bytes|];
    [|right; split; [reflexivity|eexists; reflexivity]].
  cbn [lift bind]. destruct (xml_fromstring lib bytes);
    [left; split; reflexivity
    |right; split; [reflexivity|eexists; reflexivity]].
Qed.

(** Property X9.  [extract_text_from_file] logs a warning exactly when the
    extraction fails, and never more than one.  When the PDF extractor
    answers, its text is returned as it is; when the DOCX reader answers,
    the paragraphs are returned joined by line feeds. *)
Theorem warning_exactly_on_failure lib path :
  (fst (extract_text_from_file lib path) = []
   <-> extraction_fails lib path = false)
  /\ length (fst (extract_text_from_file lib path)) <= 1
  /\ (forall text,
        Str.eqb (extension path) ".pdf" = true ->
        pdf_extract lib path = Ok text ->
        extract_text_from_file lib path = ([], Ok text))
  /\ (forall paragraphs,
        Str.eqb (extension path) ".docx" = true ->
        docx_paragraphs lib path = Ok paragraphs ->
        extract_text_from_file lib path
        = ([], Ok (Str.join ["010"%char] paragraphs))).
Proof.
  fold (warnings_of lib path).
  split; [|split; [|split]].
  - destruct (warnings_of_cases lib path) as [[F W]|[F (e & W)]];
      rewrite F, W; split; congruence.
  - destruct (warnings_of_cases lib path) as [[F W]|[F (e & W)]];
      rewrite W; simpl; lia.
  - intros text X P. unfold extract_text_from_file. fold (extension path).
    rewrite X, P. reflexivity.
  - intros ps X P. unfold extract_text_from_file. fold (extension path).
    assert (N : Str.eqb (extension path) ".pdf" = false).
    { apply StrFacts.eqb_eq in X. rewrite X. reflexivity. }
    rewrite N, X, P. reflexivity.
Qed.

Lemma warning_exactly_on_failure_witness :
  extract_text_from_file lib_ok "CV.PDF" = ([], Ok ("CV.PDF" : str))
  /\ extract_text_from_file lib_ok "cv.docx"
     = ([], Ok (Str.join ["010"%char] [("cv.docx" : str)])).
Proof.
  destruct (warning_exactly_on_failure lib_ok "CV.PDF") as (_ & _ & P & _).
  destruct (warning_exactly_on_failure lib_ok "cv.docx") as (_ & _ & _ & D).
  split; [apply P|apply D]; reflexivity.
Defined.

Module ProgressFacts.

Import Float FloatFacts FloatOrder.

Lemma bar_values_app a b : bar_values (a ++ b) = bar_values a ++ bar_values b.
Proof. apply flat_map_app. Qed.

Lemma warnings_app a b : warnings (a ++ b) = warnings a ++ warnings b.
Proof. apply filter_app. Qed.

Lemma loop_bar_values lib total paths : forall i,
  bar_values (loop_events lib total i paths)
  = map (progress_value total) (seq i (length paths)).
Proof.
  induction paths as [|p ps IH]; intros i; cbn [loop_events length seq map].
  - reflexivity.
  - rewrite !bar_values_app, IH.
    destruct (warnings_of_cases lib p) as [[_ W]|[_ (e & W)]]; rewrite W;
      reflexivity.
Qed.

Lemma loop_warnings lib total paths : forall i,
  length (warnings (loop_events lib total i paths))
  = length (filter (extraction_fails lib) paths).
Proof.
  induction paths as [|p ps IH]; intros i; cbn [loop_events filter].
  - reflexivity.
  - rewrite !warnings_app, !length_app, IH.
    destruct (warnings_of_cases lib p) as [[F W]|[F (e & W)]]; rewrite F, W;
      reflexivity.
Qed.

Lemma step_mono total i j :
  (0 < total)%nat -> (i <= j)%nat ->
  leb (progress_value total i) (progress_value total j) = true.
Proof.
  intros T H. apply of_Q_mono. apply Qmult_le_compat_r.
  - rewrite <- Zle_Qle. lia.
  - apply Qlt_le_weak, Qinv_lt_0_compat.
    change 0%Q with (inject_Z 0). rewrite <- Zlt_Qlt. lia.
Qed.

Lemma steps_nondecreasing total n : forall i,
  (0 < total)%nat -> nondecreasing (map (progress_value total) (seq i n)).
Proof.
  induction n as [|n IH]; intros i T; [exact I|].
  cbn [seq map]. destruct n as [|n]; [exact I|].
  cbn [seq map nondecreasing]. split.
  - apply step_mono; auto.
  - exact (IH (S i) T).
Qed.

Lemma step_unit total i :
  (i <= total)%nat -> (0 < total)%nat ->
  exists q, progress_value total i = Fin q /\ (0 <= q <= 1)%Q.
Proof. intros. apply PercentOrder.ratio_Fin; auto. Qed.

Lemma step_full total : (0 < total)%nat -> progress_value total total = one.
Proof.
  intros T. unfold progress_value. rewrite (of_Q_proper _ 1); [reflexivity|].
  apply Qmult_inv_r. intros E.
  assert (H : (0 < inject_Z (Z.of_nat total))%Q).
  { change 0%Q with (inject_Z 0). rewrite <- Zlt_Qlt. lia. }
  rewrite E in H. discriminate.
Qed.

Lemma last_step total n i d :
  last (map (progress_value total) (seq i (S n))) d
  = progress_value total (i + n).
Proof. rewrite seq_S, map_app. cbn [map]. apply last_last. Qed.

End ProgressFacts.

(** Property X10.  The signal [run_matching] gives while it works: first
    the number of documents is logged, then the progress bar is created,
    then the bar is set once per document, to a value between 0 and 1 that
    never decreases and ends at exactly 1.0.  The warnings logged are as
    many as the documents whose extraction fails. *)
Theorem progress_signal lib paths keywords exp_req relax
    domains tools skillsets :
  exists rest records,
    run_matching lib paths keywords exp_req relax domains tools skillsets
    = (LogInfo (length paths) :: BarCreate :: rest, Ok records)
    /\ length (bar_values rest) = length paths
    /\ Forall (fun v => exists q, v = Float.Fin q /\ (0 <= q <= 1)%Q)
              (bar_values rest)
    /\ nondecreasing (bar_values rest)
    /\ last (bar_values rest) Float.one = Float.one
    /\ length (warnings rest) = length (filter (extraction_fails lib) paths).
Proof.
  rewrite run_matching_rows. do 2 eexists. split; [reflexivity|].
  rewrite ProgressFacts.loop_bar_values, ProgressFacts.loop_warnings.
  destruct paths as [|p ps]; [repeat split; constructor|].
  set (total := length (p :: ps)).
  assert (T : 0 < total) by (unfold total; simpl; lia).
  split; [rewrite length_map, length_seq; reflexivity|].
  split; [|split; [|split; [|reflexivity]]].
  - apply Forall_map, Forall_forall. intros i Hi. apply in_seq in Hi.
    apply ProgressFacts.step_unit; lia.
  - apply ProgressFacts.steps_nondecreasing; exact T.
  - unfold total. cbn [length]. rewrite ProgressFacts.last_step.
    apply (ProgressFacts.step_full (S (length ps))). lia.
Qed.

Module FindFacts.

Import Str.

Lemma rfind_from_free c s : forall i last,
  forallb (other_than c) s = true -> rfind_from c s i last = last.
Proof.
  induction s as [|x s IH]; intros i last H; cbn [rfind_from]; auto.
  cbn [forallb] in H. apply andb_prop in H as [Hx H].
  unfold other_than in Hx. apply negb_true_iff in Hx. rewrite Hx. auto.
Qed.

Lemma rfind_from_last c a b : forall i last,
  forallb (other_than c) b = true ->
  rfind_from c (a ++ c :: b) i last = (i + Z.of_nat (length a))%Z.
Proof.
  induction a as [|x a IH]; intros i last H; cbn [app rfind_from length].
  - rewrite Ascii.eqb_refl, rfind_from_free by exact H. lia.
  - rewrite IH by exact H. lia.
Qed.

Lemma rfind_free c s : forallb (other_than c) s = true -> rfind c s = (-1)%Z.
Proof. apply rfind_from_free. Qed.

Lemma rfind_last c a b :
  forallb (other_than c) b = true ->
  rfind c (a ++ c :: b) = Z.of_nat (length a).
Proof. intros H. unfold rfind. rewrite rfind_from_last by exact H. lia. Qed.

(** A text is free of [c], or has a last [c]. *)
Lemma last_occurrence c s :
  forallb (other_than c) s = true
  \/ exists a b, s = a ++ c :: b /\ forallb (other_than c) b = true.
Proof.
  induction s as [|x s IH]; [left; reflexivity|].
  destruct IH as [F|(a & b & -> & F)].
  - destruct (Ascii.eqb x c) eqn:E.
    + apply Ascii.eqb_eq in E. subst x. right. exists [], s. auto.
    + left. cbn [forallb]. unfold other_than at 1. rewrite E, F. reflexivity.
  - right. exists (x :: a), b. auto.
Qed.

Lemma from_app a b : from (Z.of_nat (length a)) (a ++ b) = b.
Proof.
  unfold from. rewrite Nat2Z.id, skipn_app, skipn_all, Nat.sub_diag.
  reflexivity.
Qed.

Lemma upto_app a b : upto (Z.of_nat (length a)) (a ++ b) = a.
Proof.
  unfold upto. rewrite Nat2Z.id, firstn_app, firstn_all, Nat.sub_diag.
  cbn. apply app_nil_r.
Qed.

End FindFacts.

Module BasenameFacts.

Import Path FindFacts.

(** The base name is what follows the last slash. *)
Lemma basename_spec p :
  exists dir,
    p = dir ++ basename p
    /\ (dir = [] \/ exists d, dir = d ++ "/")
    /\ forallb (other_than "/") (basename p) = true.
Proof.
  unfold basename.
  destruct (last_occurrence "/" p) as [F|(a & b & -> & F)].
  - rewrite (rfind_free _ _ F). cbn. exists []. auto.
  - rewrite (rfind_last _ _ _ F).
    exists (a ++ "/"). rewrite <- app_assoc.
    change ("/" ++ ?x) with ("/"%char :: x).
    replace (Z.of_nat (length a) + 1)%Z
      with (Z.of_nat (length (a ++ ["/"%char])))
      by (rewrite length_app; cbn [length]; lia).
    change (a ++ "/"%char :: b) with (a ++ ["/"%char] ++ b).
    rewrite app_assoc, from_app. repeat split; eauto.
    rewrite <- app_assoc. reflexivity.
Qed.

End BasenameFacts.

(** Property X11.  The [Filename] of a record is the part of the path
    after its last [/]: the path is a directory prefix, empty or ending in
    [/], followed by the file name, which holds no [/] and is its own base
    name. *)
Theorem filename_is_base_name lib paths keywords exp_req relax
    domains tools skillsets :
  exists events records,
    run_matching lib paths keywords exp_req relax domains tools skillsets
    = (events, Ok records)
    /\ Forall2
         (fun path r =>
            exists dir,
              path = dir ++ Filename r
              /\ (dir = [] \/ exists d, dir = d ++ "/")
              /\ forallb (other_than "/") (Filename r) = true
              /\ Path.basename (Filename r) = Filename r)
         paths records.
Proof.
  rewrite run_matching_rows. do 2 eexists. split; [reflexivity|].
  induction paths as [|p ps IH]; cbn [map]; constructor; auto.
  unfold row_of. cbn [Filename row].
  destruct (BasenameFacts.basename_spec p) as (dir & E & D & F).
  exists dir. repeat split; auto.
  unfold Path.basename at 1. rewrite (FindFacts.rfind_free _ _ F).
  reflexivity.
Qed.

Module ExtensionFacts.

Import Path FindFacts.

(** The character of a text at a place. *)
Lemma at_inside a s b j d :
  j < length s ->
  Str.at_ (Z.of_nat (length a + j)) (a ++ s ++ b) = [nth j s d].
Proof.
  unfold Str.at_. rewrite Nat2Z.id. induction a as [|x a IH].
  - cbn [length app Nat.add]. revert j.
    induction s as [|y s IHs]; intros j H; cbn [length] in H; [lia|].
    destruct j as [|j]; [reflexivity|].
    cbn [app skipn nth]. apply IHs. lia.
  - intros H. cbn [length app Nat.add skipn]. apply IH, H.
Qed.

Section Name.

Variables pre stem e : str.

Hypothesis Hpre : pre = [] \/ exists d, pre = d ++ "/".
Hypothesis Hstem : forallb (other_than "/") stem = true.
Hypothesis He :
  forallb (fun c => other_than "." c && other_than "/" c) e = true.

Let path : str := pre ++ stem ++ "." ++ e.

Lemma e_no_dot : forallb (other_than ".") e = true.
Proof.
  clear -He. induction e as [|c s IH]; cbn [forallb] in *; auto.
  apply andb_prop in He as [Hc H]. apply andb_prop in Hc as [Hc _].
  rewrite Hc, IH; auto.
Qed.

Lemma e_no_slash : forallb (other_than "/") e = true.
Proof.
  clear -He. induction e as [|c s IH]; cbn [forallb] in *; auto.
  apply andb_prop in He as [Hc H]. apply andb_prop in Hc as [_ Hc].
  rewrite Hc, IH; auto.
Qed.

Lemma dot_index : Str.rfind "." path = Z.of_nat (length (pre ++ stem)).
Proof.
  unfold path. rewrite app_assoc.
  change ("." ++ e) with ("."%char :: e).
  apply rfind_last, e_no_dot.
Qed.

Lemma sep_index : (Str.rfind "/" path + 1)%Z = Z.of_nat (length pre).
Proof.
  unfold path.
  assert (F : forallb (other_than "/") (stem ++ "." ++ e) = true).
  { rewrite forallb_app, Hstem. cbn. apply e_no_slash. }
  destruct Hpre as [->|(d & ->)].
  - cbn [app]. rewrite (rfind_free _ _ F). reflexivity.
  - rewrite <- app_assoc. change ("/" ++ ?x) with ("/"%char :: x).
    rewrite (rfind_last _ _ _ F), length_app.
    change (length (String.list_ascii_of_string "/")) with 1. lia.
Qed.

Lemma split_at_dot :
  Str.upto (Str.rfind "." path) path = pre ++ stem
  /\ Str.from (Str.rfind "." path) path = "." ++ e.
Proof.
  rewrite dot_index. unfold path. rewrite app_assoc.
  split; [apply upto_app|apply from_app].
Qed.

Lemma stem_found :
  has_stem (length path) (Str.rfind "/" path + 1) (Str.rfind "." path) path
  = existsb (other_than ".") stem.
Proof.
  apply eq_true_iff_eq.
  rewrite PathFacts.has_stem_spec by apply PathFacts.splitext_rounds.
  rewrite sep_index, dot_index, existsb_exists. split.
  - intros (i & Hi & E). rewrite length_app in Hi.
    assert (J : exists j, i = Z.of_nat (length pre + j) /\ j < length stem).
    { exists (Z.to_nat i - length pre). lia. }
    destruct J as (j & -> & Hj).
    exists (nth j stem "."%char). split.
    + apply nth_In; exact Hj.
    + unfold path in E. rewrite (at_inside _ _ _ _ "."%char Hj) in E.
      unfold other_than.
      destruct (Ascii.eqb (nth j stem "."%char) ".") eqn:X; auto.
      apply Ascii.eqb_eq in X. rewrite X in E. discriminate.
  - intros (c & I & N).
    destruct (In_nth _ _ "."%char I) as (j & Hj & <-).
    exists (Z.of_nat (length pre + j)). split.
    + rewrite length_app. lia.
    + unfold path. rewrite (at_inside _ _ _ _ "."%char Hj).
      unfold other_than in N. apply negb_true_iff in N.
      apply not_true_iff_false. intros X. apply StrFacts.eqb_eq in X.
      injection X as X. rewrite X in N. discriminate.
Qed.

Lemma sep_before_dot : (Str.rfind "/" path <? Str.rfind "." path)%Z = true.
Proof.
  apply Z.ltb_lt. pose proof sep_index. rewrite dot_index, length_app. lia.
Qed.

(** The extension of a file name with a dot. *)
Lemma splitext_name :
  splitext path
  = if existsb (other_than ".") stem then (pre ++ stem, "." ++ e)
    else (path, []).
Proof.
  unfold splitext. rewrite sep_before_dot, stem_found. cbn [andb].
  destruct (existsb _ stem); [|reflexivity].
  destruct split_at_dot as [-> ->]. reflexivity.
Qed.

End Name.

End ExtensionFacts.

(** Property X12.  The extension of a path is read from its last
    component, whatever the case of its letters: when the name before the
    last dot has a character other than a dot, the extension is the
    lower-cased rest, so that [CV.PDF] is read as a PDF.  A name that is
    only dots followed by the extension, such as [.pdf], has no extension:
    the file is skipped with an empty text and no warning. *)
Theorem extension_of_file_name lib pre stem e :
  (pre = [] \/ exists d, pre = d ++ "/") ->
  forallb (other_than "/") stem = true ->
  forallb (fun c => other_than "." c && other_than "/" c) e = true ->
  (existsb (other_than ".") stem = true ->
   extension (pre ++ stem ++ "." ++ e) = "." ++ Str.lower e
   /\ (Str.lower e = "pdf" ->
       extract_text_from_file lib (pre ++ stem ++ "." ++ e)
       = match pdf_extract lib (pre ++ stem ++ "." ++ e) with
         | Ok text => ([], Ok text)
         | Raise x =>
             ([LogWarning (Path.basename (pre ++ stem ++ "." ++ e)) x], Ok [])
         end))
  /\ (existsb (other_than ".") stem = false ->
      extension (pre ++ stem ++ "." ++ e) = []
      /\ extract_text_from_file lib (pre ++ stem ++ "." ++ e) = ([], Ok [])).
Proof.
  intros Hpre Hstem He.
  pose proof (ExtensionFacts.splitext_name pre stem e Hpre Hstem He) as S.
  unfold extract_text_from_file, extension. rewrite S. split; intros X;
    rewrite X; cbn [snd].
  - split; [reflexivity|]. intros P.
    change (Str.lower ("." ++ e)) with ("."%char :: Str.lower e).
    rewrite P. cbn [Str.eqb]. 
    change (Str.eqb ("."%char :: "pdf") ".pdf") with true. cbn iota.
    destruct (pdf_extract lib _); reflexivity.
  - split; reflexivity.
Qed.

Lemma extension_of_file_name_witness :
  extension "/tmp/resumes/Jane.Doe.PDF" = ".pdf"
  /\ extension "/tmp/resumes/.docx" = [].
Proof.
  split.
  - destruct (extension_of_file_name lib_ok "/tmp/resumes/" "Jane.Doe" "PDF")
      as [A _].
    + right. exists ("/tmp/resumes" : str). reflexivity.
    + reflexivity.
    + reflexivity.
    + exact (proj1 (A eq_refl)).
  - destruct (extension_of_file_name lib_ok "/tmp/resumes/" "" "docx")
      as [_ B].
    + right. exists ("/tmp/resumes" : str). reflexivity.
    + reflexivity.
    + reflexivity.
    + exact (proj1 (B eq_refl)).
Defined.

Module StripFacts.

Lemma lstrip_app ws s : blank ws = true -> lstrip (ws ++ s) = lstrip s.
Proof.
  unfold blank. induction ws as [|c ws IH]; cbn [forallb app lstrip]; auto.
  intros H. apply andb_prop in H as [-> H]. auto.
Qed.

Lemma lstrip_split s :
  exists ws, s = ws ++ lstrip s /\ blank ws = true.
Proof.
  induction s as [|c s (ws & E & B)]; [exists []; auto|].
  cbn [lstrip]. destruct (Char.is_space c) eqn:C.
  - exists (c :: ws). cbn [app]. split; [congruence|].
    unfold blank in *. cbn [forallb]. rewrite C, B. reflexivity.
  - exists []. auto.
Qed.

Lemma lstrip_head s c r : lstrip s = c :: r -> Char.is_space c = false.
Proof.
  induction s as [|x s IH]; cbn [lstrip]; [discriminate|].
  destruct (Char.is_space x) eqn:X; [exact IH|].
  intros E. injection E as <- _. exact X.
Qed.

Lemma lstrip_fixed c s : Char.is_space c = false -> lstrip (c :: s) = c :: s.
Proof. intros H. cbn [lstrip]. rewrite H. reflexivity. Qed.

Lemma blank_rev ws : blank (rev ws) = blank ws.
Proof.
  unfold blank. apply eq_true_iff_eq. rewrite !forallb_forall.
  split; intros H x I; apply H; [apply in_rev in I|apply in_rev]; auto.
Qed.

Lemma rstrip_split s :
  exists ws, s = rstrip s ++ ws /\ blank ws = true.
Proof.
  unfold rstrip. destruct (lstrip_split (rev s)) as (ws & E & B).
  exists (rev ws). rewrite blank_rev. split; auto.
  rewrite <- rev_app_distr, <- E, rev_involutive. reflexivity.
Qed.

Lemma rstrip_app s ws : blank ws = true -> rstrip (s ++ ws) = rstrip s.
Proof.
  intros B. unfold rstrip. rewrite rev_app_distr, lstrip_app; auto.
  rewrite blank_rev. exact B.
Qed.

Lemma last_rev (c d : ascii) s : last (rev s ++ [c]) d = c.
Proof. apply last_last. Qed.

Lemma rstrip_last s c :
  rstrip s <> [] -> Char.is_space (last (rstrip s) c) = false.
Proof.
  unfold rstrip. destruct (lstrip (rev s)) as [|x r] eqn:E;
    [intros N; exfalso; apply N; reflexivity|].
  intros _. cbn [rev]. rewrite last_last. exact (lstrip_head _ _ _ E).
Qed.

Lemma rstrip_fixed s c :
  s <> [] -> Char.is_space (last s c) = false -> rstrip s = s.
Proof.
  intros N H. unfold rstrip.
  destruct (exists_last N) as (r & x & ->).
  rewrite last_last in H. rewrite rev_app_distr. cbn [rev app].
  rewrite lstrip_fixed by exact H.
  change (x :: rev r) with ([x] ++ rev r).
  rewrite rev_app_distr, rev_involutive. reflexivity.
Qed.

(** Stripping cuts a piece out of the text. *)
Lemma strip_split s :
  exists l r, s = l ++ strip s ++ r /\ blank l = true /\ blank r = true.
Proof.
  destruct (lstrip_split s) as (l & E & L).
  destruct (rstrip_split (lstrip s)) as (r & E' & R).
  exists l, r. unfold strip. rewrite <- E', <- E. auto.
Qed.

Lemma strip_head s c r : strip s = c :: r -> Char.is_space c = false.
Proof.
  unfold strip. destruct (rstrip_split (lstrip s)) as (ws & E & _).
  intros X. rewrite X in E. cbn [app] in E.
  exact (lstrip_head _ _ _ E).
Qed.

Lemma clean_intro c r :
  Char.is_space c = false ->
  Char.is_space (last (c :: r) c) = false ->
  forallb (other_than ",") (c :: r) = true -> clean (c :: r) = true.
Proof. intros A B C. unfold clean. rewrite A, B, C. reflexivity. Qed.

Lemma clean_elim t :
  clean t = true ->
  exists c r, t = c :: r /\ Char.is_space c = false
              /\ Char.is_space (last t c) = false
              /\ forallb (other_than ",") t = true.
Proof.
  destruct t as [|c r]; [discriminate|]. unfold clean. intros H.
  apply andb_prop in H as [H C]. apply andb_prop in H as [A B].
  apply negb_true_iff in A, B. exists c, r. auto.
Qed.

(** A clean term comes back from what was typed. *)
Lemma strip_typed l t r :
  blank l = true -> blank r = true -> clean t = true ->
  strip (l ++ t ++ r) = t.
Proof.
  intros L R C. destruct (clean_elim _ C) as (c & u & -> & A & B & _).
  unfold strip. rewrite (lstrip_app _ _ L). cbn [app].
  rewrite (lstrip_fixed _ _ A).
  change (c :: u ++ r) with ((c :: u) ++ r).
  rewrite (rstrip_app _ _ R). apply (rstrip_fixed _ c); [discriminate|auto].
Qed.

Lemma strip_clean s :
  forallb (other_than ",") s = true -> strip s <> [] ->
  clean (strip s) = true.
Proof.
  intros F N. destruct (strip s) as [|c r] eqn:E; [congruence|].
  apply clean_intro.
  - exact (strip_head _ _ _ E).
  - rewrite <- E. unfold strip. apply rstrip_last. fold (strip s).
    rewrite E. discriminate.
  - destruct (strip_split s) as (l & r' & X & _). rewrite E in X.
    rewrite X, !forallb_app in F.
    apply andb_prop in F as [_ F]. apply andb_prop in F as [F _]. exact F.
Qed.

Lemma no_comma_space c : Char.is_space c = true -> other_than "," c = true.
Proof.
  revert c. apply CharFacts.subclass_spec. vm_compute. reflexivity.
Qed.

Lemma typed_no_comma l t r :
  blank l = true -> blank r = true -> clean t = true ->
  forallb (fun x => negb (Char.same "," x)) (l ++ t ++ r) = true.
Proof.
  intros L R C. destruct (clean_elim _ C) as (_ & _ & _ & _ & _ & F).
  assert (S : forall ws, blank ws = true ->
              forallb (fun x => negb (Char.same "," x)) ws = true).
  { intros ws B. apply forallb_forall. intros x I.
    unfold blank in B. rewrite forallb_forall in B.
    apply B, no_comma_space in I. exact I. }
  rewrite !forallb_app, (S l L), (S r R), andb_true_r. exact F.
Qed.

End StripFacts.

(** Property X13.  The terms read from a field of the form
    ([[k.strip() for k in field.split(',') if k.strip()]]): every term is
    not empty, holds no comma and has no white space at its ends; terms
    typed with white space around them and commas between them are read
    back exactly, in their order; a field of white space gives no term.
    The white space is that of [str.strip], the no-break space and NEL
    included. *)
Theorem terms_of_a_field :
  (forall field t, In t (parse_terms field) -> clean t = true)
  /\ (forall entries,
        forallb well_typed entries = true ->
        parse_terms (Str.join "," (map typed entries))
        = map (fun e => snd (fst e)) entries)
  /\ (forall field, blank field = true -> parse_terms field = []).
Proof.
  split; [|split].
  - intros field t I. unfold parse_terms in I.
    apply in_map_iff in I as (k & <- & I).
    apply filter_In in I as [I T].
    apply StripFacts.strip_clean.
    + pose proof (SplitFacts.split_on_pieces (Char.same ",")
                    (fun _ => true) field) as P.
      rewrite Forall_forall in P.
      assert (A : forallb (fun _ : ascii => true) field = true)
        by (apply forallb_forall; auto).
      specialize (P A k I). cbn [andb] in P. exact P.
    + destruct (strip k); [discriminate|discriminate].
  - intros entries W.
    assert (G : forall l, forallb well_typed l = true ->
              map strip (filter (fun k => Str.truthy (strip k))
                           (map typed l))
              = map (fun e => snd (fst e)) l).
    { clear. induction l as [|[[l t] r] es IH]; [reflexivity|].
      cbn [forallb well_typed]. intros H.
      apply andb_prop in H as [H W]. apply andb_prop in H as [H R].
      apply andb_prop in H as [L C].
      cbn [map filter typed fst snd].
      rewrite (StripFacts.strip_typed _ _ _ L R C).
      destruct (StripFacts.clean_elim _ C) as (c & u & -> & _).
      cbn [Str.truthy map].
      rewrite (StripFacts.strip_typed _ _ _ L R C), (IH W).
      reflexivity. }
    unfold parse_terms. destruct entries as [|e es]; [reflexivity|].
    change (String.list_ascii_of_string ",") with [","%char].
    rewrite SplitFacts.split_on_join; [apply G, W|reflexivity|discriminate|].
    apply Forall_forall. intros k I. apply in_map_iff in I as (x & <- & I).
    rewrite forallb_forall in W. specialize (W x I).
    destruct x as [[l t] r]. cbn [well_typed] in W.
    apply andb_prop in W as [H R]. apply andb_prop in H as [L C].
    apply StripFacts.typed_no_comma; auto.
  - intros field B. unfold parse_terms.
    assert (G : forall l, Forall (fun k => blank k = true) l ->
              filter (fun k => Str.truthy (strip k)) l = []).
    { induction 1 as [|k l Hk F IH]; [reflexivity|].
      cbn [filter]. rewrite IH.
      destruct (strip k) as [|c r] eqn:E; [reflexivity|].
      pose proof (StripFacts.strip_head _ _ _ E) as X.
      destruct (StripFacts.strip_split k) as (a & b & Y & _).
      rewrite E in Y. rewrite Y in Hk. unfold blank in Hk.
      rewrite forallb_app in Hk. cbn [app forallb] in Hk.
      rewrite X in Hk. rewrite andb_false_r in Hk. discriminate. }
    rewrite G; [reflexivity|].
    pose proof (SplitFacts.split_on_pieces (Char.same ",")
                  Char.is_space field B) as P.
    eapply Forall_impl; [|exact P]. cbn beta. intros k F.
    unfold blank. apply forallb_forall. intros x I.
    rewrite forallb_forall in F. apply F in I.
    apply andb_prop in I as [I _]. exact I.
Qed.

Lemma terms_of_a_field_witness :
  parse_terms (["160"%char] ++ "Verilog , Static Timing,"
               ++ ["133"%char] ++ "TCL" ++ ["160"%char])
  = words ["Verilog"; "Static Timing"; "TCL"].
Proof.
  destruct terms_of_a_field as (_ & R & _).
  exact (R [(["160"%char], "Verilog" : str, " " : str);
            (" " : str, "Static Timing" : str, [] : str);
            (["133"%char], "TCL" : str, ["160"%char])] eq_refl).
Defined.

Module FormFacts.

(** The characters of a term are characters of the field. *)
Lemma parse_terms_chars q field t :
  forallb q field = true -> In t (parse_terms field) -> forallb q t = true.
Proof.
  intros F I. unfold parse_terms in I.
  apply in_map_iff in I as (k & <- & I). apply filter_In in I as [I _].
  pose proof (SplitFacts.split_on_pieces (Char.same ",") q field F) as P.
  rewrite Forall_forall in P. specialize (P k I).
  destruct (StripFacts.strip_split k) as (l & r & E & _).
  rewrite E, !forallb_app in P.
  apply andb_prop in P as [_ P]. apply andb_prop in P as [P _].
  apply forallb_forall. intros x X. rewrite forallb_forall in P.
  apply P in X. apply andb_prop in X as [X _]. exact X.
Qed.

Lemma parse_terms_nonempty field :
  Forall (fun t => t <> []) (parse_terms field).
Proof.
  apply Forall_forall. intros t I. unfold parse_terms in I.
  apply in_map_iff in I as (k & <- & I). apply filter_In in I as [_ T].
  destruct (strip k); [discriminate|discriminate].
Qed.

Lemma matched_In terms text t : In t (matched terms text) -> In t terms.
Proof. unfold matched. intros I. apply filter_In in I as [I _]. exact I. Qed.

(** A list of terms joined with [;] is read back by splitting. *)
Lemma split_joined l :
  Forall (fun t => t <> [] /\ forallb (other_than ";") t = true) l ->
  filter Str.truthy (Str.split_on (Char.same ";") (Str.join ";" l)) = l.
Proof.
  intros F. destruct l as [|t l]; [reflexivity|].
  change (String.list_ascii_of_string ";") with [";"%char].
  rewrite SplitFacts.split_on_join; [|reflexivity|discriminate|].
  - induction F as [|x xs [N _] _ IH]; [reflexivity|].
    cbn [filter]. destruct x; [congruence|]. cbn [Str.truthy].
    rewrite IH. reflexivity.
  - eapply Forall_impl; [|exact F]. cbn beta. intros x [_ X]. exact X.
Qed.

Lemma column_decodes field text :
  forallb (other_than ";") field = true ->
  filter Str.truthy
    (Str.split_on (Char.same ";")
       (Str.join ";" (matched (parse_terms field) text)))
  = matched (parse_terms field) text.
Proof.
  intros F. apply split_joined. apply Forall_forall. intros t I.
  apply matched_In in I. split.
  - pose proof (parse_terms_nonempty field) as N.
    rewrite Forall_forall in N. exact (N t I).
  - exact (parse_terms_chars _ _ _ F I).
Qed.

End FormFacts.

(** Property X14.  With the terms read from the form, a document whose
    extraction fails matches nothing: its matched keywords, domains, tools
    and skills are empty and its percentage is 0.0.  No condition on the
    terms is needed, since the form never yields an empty term. *)
Theorem unreadable_file_matches_nothing lib paths kw dm tl sk exp_req relax :
  exists events records,
    run_matching lib paths (parse_terms kw) exp_req relax (parse_terms dm)
                 (parse_terms tl) (parse_terms sk)
    = (events, Ok records)
    /\ Forall2
         (fun path r =>
            extraction_fails lib path = true ->
            Matched_Keywords r = [] /\ Domain r = [] /\ Tools r = []
            /\ Skillset r = [] /\ Match_Percentage r = Float.zero)
         paths records.
Proof.
  rewrite run_matching_rows. do 2 eexists. split; [reflexivity|].
  induction paths as [|p ps IH]; cbn [map]; constructor; auto.
  intros H. unfold row_of, row.
  cbn [Matched_Keywords Domain Tools Skillset Match_Percentage].
  rewrite (extraction_fails_text lib p H).
  rewrite !matched_empty_text by apply FormFacts.parse_terms_nonempty.
  rewrite match_percentage_empty_text
    by apply FormFacts.parse_terms_nonempty.
  repeat split; reflexivity.
Qed.

(** Property X15.  When the fields of the form hold no semicolon, the
    [;]-joined columns of a record can be read back: splitting a column at
    [;] and dropping the empty piece of an empty column gives the list of
    matched terms. *)
Theorem matched_columns_decode filename text kw dm tl sk exp_req relax :
  forallb (other_than ";") (kw ++ dm ++ tl ++ sk) = true ->
  exists r,
    score filename text (parse_terms kw) exp_req relax (parse_terms dm)
          (parse_terms tl) (parse_terms sk) = ([], Ok r)
    /\ filter Str.truthy (Str.split_on (Char.same ";") (Matched_Keywords r))
       = matched (parse_terms kw) text
    /\ filter Str.truthy (Str.split_on (Char.same ";") (Domain r))
       = matched (parse_terms dm) text
    /\ filter Str.truthy (Str.split_on (Char.same ";") (Tools r))
       = matched (parse_terms tl) text
    /\ filter Str.truthy (Str.split_on (Char.same ";") (Skillset r))
       = matched (parse_terms sk) text.
Proof.
  intros F. rewrite !forallb_app in F.
  apply andb_prop in F as [K F]. apply andb_prop in F as [D F].
  apply andb_prop in F as [T S].
  rewrite score_row. eexists. split; [reflexivity|].
  unfold row. cbn [Matched_Keywords Domain Tools Skillset].
  repeat split; apply FormFacts.column_decodes; assumption.
Qed.

Lemma matched_columns_decode_witness :
  exists r,
    score "cv.pdf" "TCL scripts and Verilog"
          (parse_terms "Verilog, VHDL ,TCL") None false
          (parse_terms "VLSI") (parse_terms "") (parse_terms "")
    = ([], Ok r)
    /\ filter Str.truthy (Str.split_on (Char.same ";") (Matched_Keywords r))
       = words ["Verilog"; "TCL"].
Proof.
  destruct (matched_columns_decode "cv.pdf" "TCL scripts and Verilog"
              "Verilog, VHDL ,TCL" "VLSI" "" "" None false eq_refl)
    as (r & E & K & _).
  exists r. split; [exact E|]. rewrite K. reflexivity.
Defined.
